(** * hcat: the dependency cache, the file helper and template execution

    A shallow embedding of [store.go], of [tfunc/file.go] and of the
    template type of package [hcat] ([NewTemplate], [ID], [Execute],
    [funcMap]).
    Go strings are byte sequences and are embedded as [string]; Go maps are
    embedded as stdpp finite maps; the empty interface is embedded as the
    type [any] below. *)

From Stdlib Require Import ZArith Ascii String List Lia.
From stdpp Require Import base option list strings gmap.

Local Open Scope string_scope.
Local Open Scope list_scope.

Set Warnings "-clear-no-such-hyp".

(** ** Values and errors *)

(** [interface{}]: either nil, a string, or a value of some other dynamic
    type, of which the name of the type, as the runtime prints it, and the
    identity matter here. *)
Inductive any : Type :=
| Nil : any
| Str (s : string) : any
| Opaque (dyn : string) (tag : nat) : any.

#[global] Instance any_eq_dec : EqDecision any.
Proof. solve_decision. Defined.

(** ** store.go *)

(** [type IDer interface { String() string }] *)
Class IDer (D : Type) := ider_String : D → string.

(** The [sync.RWMutex] of the struct is not represented: the embedding is
    sequential and every method runs atomically. *)
Record Store : Type := mkStore {
  data : gmap string any;
  receivedData : gset string;
}.

Definition NewStore : Store :=
  {| data := ∅; receivedData := ∅ |}.

Definition Save `{IDer D} (s : Store) (d : D) (v : any) : Store :=
  {| data := <[ider_String d := v]> (data s);
     receivedData := {[ider_String d]} ∪ receivedData s |}.

(** [s.data[k]] on a missing key is the zero value of [interface{}]. *)
Definition Recall `{IDer D} (s : Store) (d : D) : any * bool :=
  if decide (ider_String d ∈ receivedData s)
  then (default Nil (data s !! ider_String d), true)
  else (Nil, false).

Definition Delete `{IDer D} (s : Store) (d : D) : Store :=
  {| data := delete (ider_String d) (data s);
     receivedData := receivedData s ∖ {[ider_String d]} |}.

(** The two [for k := range m { delete(m, k) }] loops. *)
Definition clear_data (m : gmap string any) : gmap string any :=
  map_fold (λ k _ acc, delete k acc) m m.

Definition clear_received (m : gset string) : gset string :=
  set_fold (λ k acc, acc ∖ {[k]}) m m.

Definition Reset (s : Store) : Store :=
  {| data := clear_data (data s);
     receivedData := clear_received (receivedData s) |}.

Definition forceSet (s : Store) (hashCode : string) (v : any) : Store :=
  {| data := <[hashCode := v]> (data s);
     receivedData := {[hashCode]} ∪ receivedData s |}.

(** A string key is its own identity; this is how the [Recaller] interface
    ([Recall(key string)]) reaches the store. *)
#[global] Instance string_IDer : IDer string := λ k, k.

(** The [found] result of [Recall]. *)
Definition found `{IDer D} (s : Store) (d : D) : bool := (Recall s d).2.

(** Histories of the exported mutators, oldest first. *)
Inductive StoreOp (D : Type) : Type :=
| OpSave (d : D) (v : any)
| OpDelete (d : D)
| OpReset.
Arguments OpSave {D} d v.
Arguments OpDelete {D} d.
Arguments OpReset {D}.

Definition apply_op `{IDer D} (s : Store) (o : StoreOp D) : Store :=
  match o with
  | OpSave d v => Save s d v
  | OpDelete d => Delete s d
  | OpReset => Reset s
  end.

Definition run_ops `{IDer D} (ops : list (StoreOp D)) (s : Store) : Store :=
  fold_left apply_op ops s.

(** The wording of the specification: which operations remove an id, and
    when an id has been saved and not removed since. *)
Definition removes `{IDer D} (id : string) (o : StoreOp D) : Prop :=
  match o with
  | OpSave _ _ => False
  | OpDelete d => ider_String d = id
  | OpReset => True
  end.

Definition saved_and_kept `{IDer D} (id : string) (ops : list (StoreOp D)) : Prop :=
  ∃ pre d v post,
    ops = pre ++ OpSave d v :: post ∧ ider_String d = id ∧
    Forall (λ o, ¬ removes id o) post.

(** ** Errors *)

(** Go [error] values, by the way they are built. *)
Inductive error : Type :=
| NewError (msg : string)               (* errors.New, fmt.Errorf *)
| Wrap (cause : error) (msg : string)   (* errors.Wrap(cause, msg) *)
| RuntimePanic (msg : string)           (* a recovered run-time panic *)
| CallError (name : string) (cause : error).
                                        (* text/template: error calling name *)

#[global] Instance error_eq_dec : EqDecision error.
Proof. solve_decision. Defined.

(** ** Slices of the Go standard library used by the sources *)

Definition dquote : string := String (ascii_of_nat 34) EmptyString.

(** [%q] of [fmt]; the sources apply it to the empty string only, where
    quoting adds no escape. *)
Definition Sprintf_q (s : string) : string := dquote +:+ s +:+ dquote.

(** [strings.HasPrefix(s, prefix)] *)
Definition HasPrefix (s pre : string) : bool := String.prefix pre s.

Definition bytes_of (codes : list nat) : list ascii := map ascii_of_nat codes.

(** The six ASCII characters of [unicode.IsSpace]. *)
Definition is_ascii_space (c : ascii) : bool :=
  let n := nat_of_ascii c in
  (n =? 9)%nat || (n =? 10)%nat || (n =? 11)%nat || (n =? 12)%nat ||
  (n =? 13)%nat || (n =? 32)%nat.

(** UTF-8 encodings of the other runes of [unicode.IsSpace]: U+0085, U+00A0,
    U+1680, U+2000 to U+200A, U+2028, U+2029, U+202F, U+205F and U+3000. *)
Definition wide_spaces : list (list ascii) :=
  map bytes_of
    ([194; 133] :: [194; 160] :: [225; 154; 128] ::
     map (λ n, [226; 128; 128 + n]) (seq 0 11) ++
     [[226; 128; 168]; [226; 128; 169]; [226; 128; 175];
      [226; 129; 159]; [227; 128; 128]]).

Fixpoint strip_prefix (p s : list ascii) : option (list ascii) :=
  match p, s with
  | [], _ => Some s
  | a :: p', b :: s' => if Ascii.eqb a b then strip_prefix p' s' else None
  | _ :: _, [] => None
  end.

(** Removes one leading white-space rune, if there is one. *)
Definition strip_space (table : list (list ascii)) (s : list ascii)
  : option (list ascii) :=
  match s with
  | [] => None
  | c :: s' =>
      if is_ascii_space c then Some s'
      else
        fold_right (λ enc acc, match strip_prefix enc s with
                               | Some rest => Some rest
                               | None => acc
                               end) None table
  end.

Fixpoint trim_left (fuel : nat) (table : list (list ascii)) (s : list ascii)
  : list ascii :=
  match fuel with
  | O => s
  | S fuel' =>
      match strip_space table s with
      | Some rest => trim_left fuel' table rest
      | None => s
      end
  end.

(** [strings.TrimSpace]: leading white space goes first, then trailing white
    space, found by scanning the reversed bytes for reversed encodings. *)
Definition TrimSpace (s : string) : string :=
  let b := list_ascii_of_string s in
  let l := trim_left (length b) wide_spaces b in
  let r := trim_left (length l) (map (@rev ascii) wide_spaces) (rev l) in
  string_of_list_ascii (rev r).

(** The two functions of [path/filepath] that [pathInSandbox] calls.
    [EvalSymlinks] reads the file system and [Rel] depends on the platform's
    separator, so both are taken from the environment. *)
Record Filepath : Type := mkFilepath {
  EvalSymlinks : string → string + error;
  Rel : string → string → string + error;
}.

(** A reference environment: Unix separators and a file tree without
    symbolic links in which every path exists, so that [EvalSymlinks] is
    [Clean]. *)
Fixpoint split_on (sep : ascii) (cur : list ascii) (s : list ascii)
  : list (list ascii) :=
  match s with
  | [] => [rev cur]
  | c :: s' => if Ascii.eqb c sep then rev cur :: split_on sep [] s'
               else split_on sep (c :: cur) s'
  end.

Definition components (p : string) : list string :=
  filter (λ c, c ≠ "" ∧ c ≠ ".")
         (map string_of_list_ascii (split_on "/"%char [] (list_ascii_of_string p))).

Definition rooted (p : string) : bool := HasPrefix p "/".

(** [stack] holds the components kept so far, innermost first. *)
Fixpoint resolve_dots (root : bool) (stack : list string) (cs : list string)
  : list string :=
  match cs with
  | [] => rev stack
  | c :: cs' =>
      if decide (c = "..") then
        match stack with
        | top :: below =>
            if decide (top = "..") then resolve_dots root (c :: stack) cs'
            else resolve_dots root below cs'
        | [] => if root then resolve_dots root [] cs'
                else resolve_dots root [c] cs'
        end
      else resolve_dots root (c :: stack) cs'
  end.

Definition join_path (cs : list string) : string :=
  match cs with
  | [] => ""
  | c :: cs' => fold_left (λ acc x, acc +:+ "/" +:+ x) cs' c
  end.

Definition Clean (p : string) : string :=
  let cs := resolve_dots (rooted p) [] (components p) in
  if rooted p then "/" +:+ join_path cs
  else match cs with [] => "." | _ => join_path cs end.

Fixpoint drop_common (b t : list string) : list string * list string :=
  match b, t with
  | x :: b', y :: t' => if decide (x = y) then drop_common b' t' else (b, t)
  | _, _ => (b, t)
  end.

Definition lexical_Rel (basepath targpath : string) : string + error :=
  let cannot := NewError ("Rel: can't make " +:+ targpath +:+
                          " relative to " +:+ basepath) in
  let base := Clean basepath in
  let targ := Clean targpath in
  if decide (base = targ) then inl "."
  else if negb (Bool.eqb (rooted base) (rooted targ)) then inr cannot
  else
    let '(b, t) := drop_common (components base) (components targ) in
    match b with
    | [] => inl (join_path t)
    | x :: _ =>
        if decide (x = "..") then inr cannot
        else inl (join_path (map (λ _, "..") b ++ t))
    end.

Definition unix_no_symlinks : Filepath :=
  {| EvalSymlinks := λ p, inl (Clean p); Rel := lexical_Rel |}.

(** ** Dependencies and dependency sets *)

(** [FileQuery]: the stop channel and the last [os.FileInfo] only serve
    [Fetch], which is outside this development. *)
Record FileQuery : Type := mkFileQuery { path : string }.

#[global] Instance FileQuery_eq_dec : EqDecision FileQuery.
Proof. solve_decision. Defined.

(** [fmt.Sprintf("file(%s)", d.path)] *)
Definition FileQuery_String (d : FileQuery) : string :=
  "file(" +:+ path d +:+ ")".

(** [tfunc/file.go] holds the constructor that the file helper reaches under
    the package name [idep]. *)
Definition NewFileQuery (s : string) : FileQuery + error :=
  let s := TrimSpace s in
  if decide (s = "") then
    inr (NewError ("file: invalid format: " +:+ Sprintf_q s))
  else inl {| path := s |}.

(** [dep.Dependency]: the file query, or any other implementation, of which
    only [String()] matters here. *)
Inductive Dependency : Type :=
| DepFile (q : FileQuery)
| DepOther (id : string).

#[global] Instance Dependency_eq_dec : EqDecision Dependency.
Proof. solve_decision. Defined.

#[global] Instance Dependency_IDer : IDer Dependency := λ d,
  match d with
  | DepFile q => FileQuery_String q
  | DepOther id => id
  end.

(** Modelled from the spec: [DepSet], [NewDepSet] and [Add] (the file that
    declares them is not in this source tree): "An ordered, set-semantics
    container of dependencies keyed by id, supporting Add (idempotent), Len,
    and iteration in insertion order." *)
Record DepSet : Type := mkDepSet { items : list Dependency }.

Definition NewDepSet : DepSet := {| items := [] |}.

Definition ids (s : DepSet) : list string := map ider_String (items s).

Definition Add (s : DepSet) (d : Dependency) : DepSet :=
  if decide (ider_String d ∈ ids s) then s
  else {| items := items s ++ [d] |}.

Definition Len (s : DepSet) : nat := length (items s).

(** ** The objects an execution works on *)

(** Go passes the store and the two dependency sets by pointer and every
    helper closure captures the same three pointers.  A [World] holds the
    objects; a pointer is an index into it.  [lookups] records, oldest
    first, every call of [Recall] made through a [Recaller]. *)
Record World : Type := mkWorld {
  stores : list Store;
  depsets : list DepSet;
  lookups : list (nat * string);
}.

(** [NewDepSet()] allocates. *)
Definition alloc_DepSet (w : World) : World * nat :=
  ({| stores := stores w;
      depsets := depsets w ++ [NewDepSet];
      lookups := lookups w |},
   length (depsets w)).

Definition deref (w : World) (p : nat) : DepSet :=
  default NewDepSet (depsets w !! p).

(** Writes through a [*DepSet]. *)
Definition store_DepSet (p : nat) (s : DepSet) (w : World) : World :=
  {| stores := stores w;
     depsets := <[p := s]> (depsets w);
     lookups := lookups w |}.

Definition record_lookup (r : nat) (key : string) (w : World) : World :=
  {| stores := stores w;
     depsets := depsets w;
     lookups := lookups w ++ [(r, key)] |}.

(** Writes through a [*Store]. *)
Definition store_Store (r : nat) (s : Store) (w : World) : World :=
  {| stores := <[r := s]> (stores w);
     depsets := depsets w;
     lookups := lookups w |}.

Definition nil_dereference : string :=
  "invalid memory address or nil pointer dereference".

(** What the body of a function of the function map may do to the world.
    With the three pointers that [funcMap] hands to helpers it may call
    [Recall] through the [Recaller] interface (its only method) and [Add]
    on a dependency set; it returns a value and an error, or panics.  A
    function supplied by the caller is any Go function: when it holds the
    [*Store] itself, and not only the [Recaller], it may also call [Save],
    [Delete] or [Reset] on it, which is [HStore]. *)
Inductive hcomp : Type :=
| HReturn (v : any) (err : option error)
| HPanic (msg : string)
| HRecall (r : nat) (key : string) (k : any → bool → hcomp)
| HAdd (p : nat) (d : Dependency) (k : hcomp)
| HStore (r : nat) (o : StoreOp string) (k : hcomp).

Inductive outcome : Type :=
| Returned (v : any) (err : option error)
| Panicked (msg : string).

Fixpoint run_h (c : hcomp) (w : World) : World * outcome :=
  match c with
  | HReturn v err => (w, Returned v err)
  | HPanic msg => (w, Panicked msg)
  | HRecall r key k =>
      match stores w !! r with
      | Some s =>
          let '(v, ok) := Recall s key in
          run_h (k v ok) (record_lookup r key w)
      | None => (w, Panicked nil_dereference)
      end
  | HAdd p d k =>
      match depsets w !! p with
      | Some s => run_h k (store_DepSet p (Add s d) w)
      | None => (w, Panicked nil_dereference)
      end
  | HStore r o k =>
      match stores w !! r with
      | Some s => run_h k (store_Store r (apply_op s o) w)
      | None => (w, Panicked nil_dereference)
      end
  end.

(** ** tfunc/file.go *)

Definition pathInSandbox (fp : Filepath) (sandbox path : string)
  : option error :=
  if decide (sandbox ≠ "") then
    match EvalSymlinks fp path with
    | inr err => Some err
    | inl s =>
        match Rel fp sandbox s with
        | inr err => Some err
        | inl s =>
            if HasPrefix s ".." then
              Some (NewError ("'" +:+ path +:+ "' is outside of sandbox"))
            else None
        end
    end
  else None.

(** The run-time error of the failed assertion [value.(string)] on a value
    of the dynamic type [dyn], as in [interface conversion: interface {} is
    int, not string]. *)
Definition interface_conversion (dyn : string) : string :=
  "interface conversion: interface {} is " +:+ dyn +:+ ", not string".

(** The closure returned by [fileFunc]; a result [(s, err)] is
    [HReturn (Str s) err]. *)
Definition fileFunc (fp : Filepath) (r : nat) (used missing : nat)
    (sandboxPath : string) : string → hcomp := λ s,
  if (String.length s =? 0)%nat then HReturn (Str "") None
  else
    match pathInSandbox fp sandboxPath s with
    | Some err => HReturn (Str "") (Some err)
    | None =>
        match NewFileQuery s with
        | inr err => HReturn (Str "") (Some err)
        | inl d =>
            HAdd used (DepFile d)
              (HRecall r (FileQuery_String d) (λ value ok,
                 if ok then
                   match value with
                   | Nil => HReturn (Str "") None
                   | Str v => HReturn (Str v) None
                   | Opaque dyn _ => HPanic (interface_conversion dyn)
                   end
                 else HAdd missing (DepFile d) (HReturn (Str "") None)))
        end
    end.

(** ** crypto/md5 and encoding/hex *)

Local Open Scope Z_scope.

(** 32-bit words are integers in [0, 2^32); sums wrap around. *)
Definition u32 (x : Z) : Z := Z.land x 0xffffffff.

Definition not32 (x : Z) : Z := Z.lxor x 0xffffffff.

Definition rotl32 (x c : Z) : Z :=
  u32 (Z.lor (Z.shiftl x c) (Z.shiftr x (32 - c))).

Definition md5_shift : list Z :=
  [7; 12; 17; 22; 7; 12; 17; 22; 7; 12; 17; 22; 7; 12; 17; 22;
   5; 9; 14; 20; 5; 9; 14; 20; 5; 9; 14; 20; 5; 9; 14; 20;
   4; 11; 16; 23; 4; 11; 16; 23; 4; 11; 16; 23; 4; 11; 16; 23;
   6; 10; 15; 21; 6; 10; 15; 21; 6; 10; 15; 21; 6; 10; 15; 21].

Definition md5_K : list Z :=
  [0xd76aa478; 0xe8c7b756; 0x242070db; 0xc1bdceee;
   0xf57c0faf; 0x4787c62a; 0xa8304613; 0xfd469501;
   0x698098d8; 0x8b44f7af; 0xffff5bb1; 0x895cd7be;
   0x6b901122; 0xfd987193; 0xa679438e; 0x49b40821;
   0xf61e2562; 0xc040b340; 0x265e5a51; 0xe9b6c7aa;
   0xd62f105d; 0x02441453; 0xd8a1e681; 0xe7d3fbc8;
   0x21e1cde6; 0xc33707d6; 0xf4d50d87; 0x455a14ed;
   0xa9e3e905; 0xfcefa3f8; 0x676f02d9; 0x8d2a4c8a;
   0xfffa3942; 0x8771f681; 0x6d9d6122; 0xfde5380c;
   0xa4beea44; 0x4bdecfa9; 0xf6bb4b60; 0xbebfbc70;
   0x289b7ec6; 0xeaa127fa; 0xd4ef3085; 0x04881d05;
   0xd9d4d039; 0xe6db99e5; 0x1fa27cf8; 0xc4ac5665;
   0xf4292244; 0x432aff97; 0xab9423a7; 0xfc93a039;
   0x655b59c3; 0x8f0ccc92; 0xffeff47d; 0x85845dd1;
   0x6fa87e4f; 0xfe2ce6e0; 0xa3014314; 0x4e0811a1;
   0xf7537e82; 0xbd3af235; 0x2ad7d2bb; 0xeb86d391].

(** Little-endian bytes of [x], [n] of them. *)
Fixpoint le_bytes (n : nat) (x : Z) : list Z :=
  match n with
  | O => []
  | S n' => Z.land x 0xff :: le_bytes n' (Z.shiftr x 8)
  end.

Fixpoint le_value (bs : list Z) : Z :=
  match bs with
  | [] => 0
  | b :: bs' => b + 256 * le_value bs'
  end.

(** The message, one 1 bit, zeros up to 56 modulo 64 bytes, and the length
    in bits on 64 bits. *)
Definition md5_pad (msg : list Z) : list Z :=
  let n := length msg in
  msg ++ [0x80] ++ repeat 0 ((119 - n mod 64) mod 64)%nat ++
  le_bytes 8 (8 * Z.of_nat n).

Fixpoint chunks (fuel size : nat) (l : list Z) : list (list Z) :=
  match fuel with
  | O => []
  | S fuel' =>
      match l with
      | [] => []
      | _ => take size l :: chunks fuel' size (drop size l)
      end
  end.

Definition md5_words (block : list Z) : list Z :=
  map le_value (chunks 16 4 block).

Definition md5_state : Type := Z * Z * Z * Z.

Definition md5_step (M : list Z) (st : md5_state) (i : nat) : md5_state :=
  let '(a, b, c, d) := st in
  let '(f, g) :=
    if (i <? 16)%nat then (Z.lor (Z.land b c) (Z.land (not32 b) d), i)
    else if (i <? 32)%nat then
      (Z.lor (Z.land d b) (Z.land (not32 d) c), ((5 * i + 1) mod 16)%nat)
    else if (i <? 48)%nat then
      (Z.lxor (Z.lxor b c) d, ((3 * i + 5) mod 16)%nat)
    else (Z.lxor c (Z.lor b (not32 d)), ((7 * i) mod 16)%nat) in
  let f := u32 (f + a + nth i md5_K 0 + nth g M 0) in
  (d, u32 (b + rotl32 f (nth i md5_shift 0)), b, c).

Definition md5_block (st : md5_state) (block : list Z) : md5_state :=
  let '(a0, b0, c0, d0) := st in
  let '(a, b, c, d) := fold_left (md5_step (md5_words block)) (seq 0 64) st in
  (u32 (a0 + a), u32 (b0 + b), u32 (c0 + c), u32 (d0 + d)).

Definition md5_init : md5_state :=
  (0x67452301, 0xefcdab89, 0x98badcfe, 0x10325476).

(** [md5.Sum]: the 16 bytes of the digest. *)
Definition md5_Sum (msg : list Z) : list Z :=
  let padded := md5_pad msg in
  let '(a, b, c, d) :=
    fold_left md5_block (chunks (length padded) 64 padded) md5_init in
  le_bytes 4 a ++ le_bytes 4 b ++ le_bytes 4 c ++ le_bytes 4 d.

Definition hex_digit (n : Z) : ascii :=
  default "0"%char (String.get (Z.to_nat n) "0123456789abcdef").

(** [hex.EncodeToString] *)
Definition hex_EncodeToString (bs : list Z) : string :=
  string_of_list_ascii
    (flat_map (λ b, [hex_digit (Z.shiftr b 4); hex_digit (Z.land b 0x0f)]) bs).

(** [[]byte(s)] *)
Definition bytes (s : string) : list Z :=
  map (λ c, Z.of_nat (nat_of_ascii c)) (list_ascii_of_string s).

Local Close Scope Z_scope.

(** ** The template type of package hcat *)

(** A value of a [template.FuncMap].  The type switch of [funcMap] tells
    apart the values of dynamic type
    [func(Recaller, *DepSet, *DepSet) interface{}]; every other value is a
    function the template may call with the arguments it evaluated.  Values
    that are not functions are left out: [text/template] panics when it is
    given one.

    [DepBinding f] stands for the binder by the value [f r used missing]
    that a call of it returns.  What the body of the binder does to the
    world during that call, before it returns, is [binder_effect] below.  A
    binder that panics makes [Execute] panic, since [funcMap] runs outside
    the recovery of [text/template]: no result is returned then, and such
    caller maps are outside the statements on the results of [Execute]. *)
Inductive fval : Type :=
| Fn (f : list any → hcomp)
| DepBinding (f : nat → nat → nat → fval).

(** How [text/template] calls a [func(string) (string, error)]: with exactly
    one string argument, and with an error otherwise. *)
Definition string_args (f : string → hcomp) : list any → hcomp := λ args,
  match args with
  | [Str s] => f s
  | _ => HReturn Nil (Some (NewError "wrong number or type of arguments"))
  end.

(** [Renderer]: an interface value with the one method [Render]; its result
    type is declared outside this source tree. *)
Definition Renderer : Type := option (string → any * option error).

Record Template : Type := mkTemplate {
  contents : string;
  leftDelim : string;
  rightDelim : string;
  hexMD5 : string;
  errMissingKey : bool;
  funcMapMerge : gmap string fval;
  sandboxPath : string;
  renderer : Renderer;
}.

Record TemplateInput : Type := mkTemplateInput {
  Contents : string;
  ErrMissingKey : bool;
  LeftDelim : string;
  RightDelim : string;
  FuncMapMerge : gmap string fval;
  SandboxPath : string;
  Renderer_ : Renderer;
}.

Definition NewTemplate (i : TemplateInput) : Template :=
  let hash := md5_Sum (bytes (Contents i)) in
  {| contents := Contents i;
     leftDelim := LeftDelim i;
     rightDelim := RightDelim i;
     hexMD5 := hex_EncodeToString hash;
     errMissingKey := ErrMissingKey i;
     funcMapMerge := FuncMapMerge i;
     sandboxPath := SandboxPath i;
     renderer := Renderer_ i |}.

Definition ID (t : Template) : string := hexMD5 t.

Record ExecuteResult : Type := mkExecuteResult {
  Used : DepSet;
  Missing : DepSet;
  Output : string;
}.

(** [funcMapInput]; the field [t] only serves [executeTemplate], which is
    outside this source tree. *)
Record funcMapInput : Type := mkFuncMapInput {
  i_store : nat;
  i_env : list string;
  i_funcMapMerge : gmap string fval;
  i_sandboxPath : string;
  i_used : nat;
  i_missing : nat;
}.

(** What a parsed template does when it runs, as far as this package can
    see: it writes text, calls functions of its function map by name and
    goes on with their results, or stops with an error of its own. *)
Inductive tprog : Type :=
| TEnd
| TText (s : string) (k : tprog)
| TCall (name : string) (args : list any) (k : any → tprog)
| TFail (e : error).

(** One invocation made by the type switch of [funcMap]: the key, and the
    three arguments. *)
Definition binding_call : Type := string * (nat * nat * nat).

Section template.
(** The file system and platform of [path/filepath]. *)
Variable fp : Filepath.

(** The entries of the table of [funcMap] other than ["file"]; the
    functions that build them are outside this source tree. *)
Variable other_helpers : funcMapInput → gmap string fval.

(** [text/template]'s parser: name, delimiters, whether the option is
    [missingkey=error], the names of the defined functions, and the
    text. *)
Variable Parse :
  string → string → string → bool → gset string → string → tprog + error.

Definition builtin (i : funcMapInput) : gmap string fval :=
  <["file" := Fn (string_args (fileFunc fp (i_store i) (i_used i)
                                        (i_missing i) (i_sandboxPath i)))]>
    (other_helpers i).

(** The body of the loop over [i.funcMapMerge]; the second component
    collects the invocations of the first case of the switch. *)
Definition merge_entry (i : funcMapInput) (k : string) (v : fval)
    (acc : gmap string fval * list binding_call)
  : gmap string fval * list binding_call :=
  match v with
  | DepBinding f =>
      (<[k := f (i_store i) (i_used i) (i_missing i)]> acc.1,
       acc.2 ++ [(k, (i_store i, i_used i, i_missing i))])
  | Fn _ => (<[k := v]> acc.1, acc.2)
  end.

Definition funcMap_traced (i : funcMapInput)
  : gmap string fval * list binding_call :=
  map_fold (merge_entry i) (builtin i, []) (i_funcMapMerge i).

Definition funcMap (i : funcMapInput) : gmap string fval :=
  (funcMap_traced i).1.

(** [tmpl.Execute(&b, nil)]: [buf] is the buffer.  An error returned by a
    function, or a panic in it, ends the execution. *)
Fixpoint exec (fm : gmap string fval) (p : tprog) (buf : string) (w : World)
  : World * (string + error) :=
  match p with
  | TEnd => (w, inl buf)
  | TText s k => exec fm k (buf +:+ s) w
  | TFail e => (w, inr e)
  | TCall name args k =>
      match fm !! name with
      | Some (Fn f) =>
          match run_h (f args) w with
          | (w', Returned v None) => exec fm (k v) buf w'
          | (w', Returned _ (Some err)) => (w', inr (CallError name err))
          | (w', Panicked msg) =>
              (w', inr (CallError name (RuntimePanic msg)))
          end
      | Some (DepBinding _) =>
          (w, inr (CallError name
                     (NewError "wrong number or type of arguments")))
      | None => (w, inr (NewError ("function not defined: " +:+ name)))
      end
  end.

Definition Execute_input (t : Template) (r used missing : nat)
  : funcMapInput :=
  {| i_store := r;
     i_env := [];
     i_funcMapMerge := funcMapMerge t;
     i_sandboxPath := sandboxPath t;
     i_used := used;
     i_missing := missing |}.

(** What the body of a caller's binder does to the world while the loop
    of [funcMap] calls it, before it returns its closure: the identity for
    a binder that only builds the closure.  The argument is the invocation:
    the key and the three pointers. *)
Variable binder_effect : binding_call → World → World.

(** The effects of the invocations of the loop, in its order.  Go visits
    the entries of a map in an order that it does not specify; the order
    here is that of [map_fold], and the statements on [Execute] ask of the
    invocations only what they ask of each one of them. *)
Definition bind_all (calls : list binding_call) (w : World) : World :=
  fold_left (λ w c, binder_effect c w) calls w.

Definition Execute (t : Template) (r : nat) (w : World)
  : World * (ExecuteResult + error) :=
  let '(w, used) := alloc_DepSet w in
  let '(w, missing) := alloc_DepSet w in
  let fm := funcMap (Execute_input t r used missing) in
  let w := bind_all (funcMap_traced (Execute_input t r used missing)).2 w in
  match Parse (ID t) (leftDelim t) (rightDelim t) (errMissingKey t)
              (dom fm) (contents t) with
  | inr err => (w, inr (Wrap err "parse"))
  | inl tmpl =>
      match exec fm tmpl "" w with
      | (w, inr err) => (w, inr (Wrap err "execute"))
      | (w, inl b) =>
          (w, inl {| Used := deref w used;
                     Missing := deref w missing;
                     Output := b |})
      end
  end.
End template.

(** ** Vocabulary of the statements *)

(** What the type switch of [funcMap] is to leave under a key: the result
    of the call for a dep-binding entry, the entry itself otherwise. *)
Definition installed (i : funcMapInput) (v : fval) : fval :=
  match v with
  | DepBinding f => f (i_store i) (i_used i) (i_missing i)
  | Fn _ => v
  end.

(** The invocations made for the entry under [k]. *)
Definition calls_for (k : string) (calls : list binding_call)
  : list binding_call :=
  filter (λ c, c.1 = k) calls.

(** The error of a path that leaves the sandbox. *)
Definition outside_of_sandbox (path : string) : error :=
  NewError ("'" +:+ path +:+ "' is outside of sandbox").

(** The helper contract of the specification, for a closure bound to the
    recaller [r] and to the sets [used] and [missing]: a call builds
    dependencies one after the other; each is added to [used], then looked
    up under its id; when the recaller reports it absent it is added to
    [missing]; the call ends by returning or by a panic. *)
Inductive follows_contract (r used missing : nat) : hcomp → Prop :=
| fc_return v err : follows_contract r used missing (HReturn v err)
| fc_panic msg : follows_contract r used missing (HPanic msg)
| fc_dependency d k k' :
    (∀ v, follows_contract r used missing (k v true)) →
    (∀ v, k v false = HAdd missing d (k' v)) →
    (∀ v, follows_contract r used missing (k' v)) →
    follows_contract r used missing
      (HAdd used d (HRecall r (ider_String d) k)).

Definition helpers_follow_contract (r used missing : nat)
    (fm : gmap string fval) : Prop :=
  ∀ name f args, fm !! name = Some (Fn f) →
                 follows_contract r used missing (f args).

(** A function body that reaches no store but through [Recall]. *)
Inductive reads_only : hcomp → Prop :=
| ro_return v err : reads_only (HReturn v err)
| ro_panic msg : reads_only (HPanic msg)
| ro_recall r key k :
    (∀ v ok, reads_only (k v ok)) → reads_only (HRecall r key k)
| ro_add p d k : reads_only k → reads_only (HAdd p d k).

(** Every call that the template [p] makes when it runs from the world [w]
    with the function map [fm] is the call of a body that satisfies [P].
    Entries that the run never calls are not looked at. *)
Fixpoint calls_satisfy (P : hcomp → Prop) (fm : gmap string fval)
    (p : tprog) (w : World) : Prop :=
  match p with
  | TEnd => True
  | TFail _ => True
  | TText _ k => calls_satisfy P fm k w
  | TCall name args k =>
      match fm !! name with
      | Some (Fn f) =>
          P (f args) ∧
          match run_h (f args) w with
          | (w', Returned v None) => calls_satisfy P fm (k v) w'
          | _ => True
          end
      | _ => True
      end
  end.

Section starting_point.
Variable fp : Filepath.
Variable other_helpers : funcMapInput → gmap string fval.
Variable binder_effect : binding_call → World → World.

(** The function map with which [Execute] runs the template. *)
Definition Execute_funcs (t : Template) (r : nat) (w : World)
  : gmap string fval :=
  funcMap fp other_helpers
    (Execute_input t r (length (depsets w)) (S (length (depsets w)))).

(** The invocations of binders that the loop of [funcMap] makes for it. *)
Definition Execute_bindings (t : Template) (r : nat) (w : World)
  : list binding_call :=
  (funcMap_traced fp other_helpers
     (Execute_input t r (length (depsets w)) (S (length (depsets w))))).2.

(** The world in which the template starts to run: the two new sets, and
    what the binders did when bound. *)
Definition Execute_start (t : Template) (r : nat) (w : World) : World :=
  bind_all binder_effect (Execute_bindings t r w)
    (alloc_DepSet (alloc_DepSet w).1).1.
End starting_point.

(** What each binder of [calls] does to the world when bound is the run
    of a body that satisfies [P]; a binder that only builds its closure
    runs the body that returns at once. *)
Definition binders_satisfy (P : hcomp → Prop)
    (binder_effect : binding_call → World → World)
    (calls : list binding_call) : Prop :=
  Forall (λ c, ∃ body, P body ∧ ∀ w, binder_effect c w = (run_h body w).1)
         calls.

(** The keys looked up through recaller [r] among the lookups [l]. *)
Definition keys_of (r : nat) (l : list (nat * string)) : list string :=
  map snd (filter (λ e, e.1 = r) l).

(** A dependency the store has not received. *)
Definition absent_from (S : Store) (d : Dependency) : Prop :=
  ider_String d ∉ receivedData S.

#[global] Instance absent_from_dec S d : Decision (absent_from S d).
Proof. unfold absent_from. apply _. Defined.

(** What holds of the world all along an execution whose helpers follow
    the contract.  [w0] is the world when the template starts to run, with
    the store [S] behind the recaller [r] and two empty sets at [used] and
    [missing]; [w] is the world reached. *)
Record contract_inv (r used missing : nat) (S : Store) (w0 w : World)
  : Prop := mkContractInv {
  inv_stores : stores w = stores w0;
  inv_length : length (depsets w) = length (depsets w0);
  inv_others : ∀ p, p ≠ used → p ≠ missing →
                    depsets w !! p = depsets w0 !! p;
  inv_lookups : ∃ touched,
      lookups w = lookups w0 ++ map (pair r) touched
      ∧ ∀ id, id ∈ ids (deref w used) ↔ id ∈ touched;
  inv_missing :
      items (deref w missing) = filter (absent_from S) (items (deref w used));
}.

(** ** Concrete inputs used by the examples *)

(** A world with one store, at address 0, and no dependency set yet. *)
Definition world_of (s : Store) : World :=
  {| stores := [s]; depsets := []; lookups := [] |}.

(** A world as a helper closure sees it: the store at address 0, [used] at
    address 0 and [missing] at address 1 of the dependency sets. *)
Definition helper_world (s : Store) : World :=
  {| stores := [s]; depsets := [NewDepSet; NewDepSet]; lookups := [] |}.

(** How a template prints the result of a call: a string as it is, nil as
    [<no value>]; other values do not occur in the examples. *)
Definition print_value (v : any) : string :=
  match v with
  | Str s => s
  | Nil => "<no value>"
  | Opaque _ _ => ""
  end.

(** The program of the one-action template that prints [file p]. *)
Definition file_call (p : string) : tprog :=
  TCall "file" [Str p] (λ v, TText (print_value v) TEnd).

(** The text of that template: [{{ file "p" }}]. *)
Definition file_action (p : string) : string :=
  "{{ file " +:+ dquote +:+ p +:+ dquote +:+ " }}".

(** The program of the one-action template [{{ hosts }}]. *)
Definition hosts_call : tprog :=
  TCall "hosts" [] (λ v, TText (print_value v) TEnd).

(** A parser that knows one template. *)
Definition parse_to (p : tprog)
  : string → string → string → bool → gset string → string → tprog + error :=
  λ _ _ _ _ _ _, inl p.

Definition no_other_helpers : funcMapInput → gmap string fval := λ _, ∅.

(** Binders that only build their closure. *)
Definition no_binder_effect : binding_call → World → World := λ _ w, w.

(** A binder that returns a closure that does nothing, after its body has
    added a dependency to [used]. *)
Definition eager_binder : nat → nat → nat → fval := λ r used missing,
  Fn (λ _, HReturn (Str "") None).

Definition eager_effect : binding_call → World → World := λ c w,
  let used := c.2.1.2 in
  store_DepSet used (Add (deref w used) (DepOther "hosts")) w.

(** A caller's function that holds the store at address 0 and saves into
    it. *)
Definition poke : fval :=
  Fn (λ _, HStore 0 (OpSave "poked" (Str "x")) (HReturn (Str "") None)).

(** The program of the one-action template [{{ poke }}]. *)
Definition poke_call : tprog :=
  TCall "poke" [] (λ v, TText (print_value v) TEnd).

Definition template_of (text sandbox : string) (merge : gmap string fval)
  : Template :=
  NewTemplate {| Contents := text; ErrMissingKey := false;
                 LeftDelim := ""; RightDelim := "";
                 FuncMapMerge := merge; SandboxPath := sandbox;
                 Renderer_ := None |}.

(** A caller's dep-binding helper that keeps to the contract. *)
Definition hosts_binder : nat → nat → nat → fval := λ r used missing,
  Fn (λ _, HAdd used (DepOther "hosts")
             (HRecall r "hosts" (λ v ok,
                if ok then HReturn v None
                else HAdd missing (DepOther "hosts") (HReturn Nil None)))).

(** A caller's dep-binding helper that reports a dependency as missing
    without recording it as used. *)
Definition missing_only_binder : nat → nat → nat → fval := λ r used missing,
  Fn (λ _, HAdd missing (DepOther "hosts") (HReturn (Str "") None)).

(** ** Further vocabulary: the store, key by key *)

(** What one operation does to the value held for [id], seen as a cell that
    is empty or holds a value. *)
Definition step_value `{IDer D} (id : string) (cur : option any)
    (o : StoreOp D) : option any :=
  match o with
  | OpSave d v => if decide (ider_String d = id) then Some v else cur
  | OpDelete d => if decide (ider_String d = id) then None else cur
  | OpReset => None
  end.

(** The cell for [id] at the end of a history that starts empty. *)
Definition last_value `{IDer D} (id : string) (ops : list (StoreOp D))
  : option any :=
  fold_left (step_value id) ops None.

(** The two maps of a store list the same keys. *)
Definition keys_agree (s : Store) : Prop := dom (data s) = receivedData s.

(** The search of [strip_space] through the table of wide spaces. *)
Definition strip_wide (table : list (list ascii)) (s : list ascii)
  : option (list ascii) :=
  fold_right (λ enc acc, match strip_prefix enc s with
                         | Some rest => Some rest
                         | None => acc
                         end) None table.

(** A file tree that holds nothing but its root and the working
    directory.  [EvalSymlinks] walks the path and fails at its first
    component, with the error of [os.Lstat] on that component. *)
Definition empty_tree : Filepath :=
  {| EvalSymlinks := λ p,
       match components p with
       | [] => inl (Clean p)
       | c :: _ =>
           inr (NewError ("lstat " +:+ (if rooted p then "/" else "") +:+ c
                          +:+ ": no such file or directory"))
       end;
     Rel := lexical_Rel |}.


(** The characters of [hex.EncodeToString]. *)
Definition is_lower_hex (c : ascii) : bool :=
  let n := nat_of_ascii c in
  ((48 <=? n) && (n <=? 57) || (97 <=? n) && (n <=? 102))%nat.

(** ** [Fetch] and [watch] of a file query that is not stopped *)

(** [os.FileInfo], as far as [watch] reads it; [ModTime] stands for the
    [time.Time] that [watch] compares with [!=]. *)
Record FileInfo : Type := mkFileInfo { Size : Z; ModTime : Z }.

#[global] Instance FileInfo_eq_dec : EqDecision FileInfo.
Proof. solve_decision. Defined.

(** [watchResult] *)
Record watchResult : Type := mkWatchResult {
  wr_stat : option FileInfo;
  wr_err : option error;
}.

(** [lastStat == nil || lastStat.Size() != stat.Size() ||
    lastStat.ModTime() != stat.ModTime()] *)
Definition changed (lastStat : option FileInfo) (stat : FileInfo) : bool :=
  match lastStat with
  | None => true
  | Some last =>
      negb (Size last =? Size stat)%Z || negb (ModTime last =? ModTime stat)%Z
  end.

(** The loop of the goroutine of [watch], for a query whose stop channel
    stays open.  [polls] holds the results of the successive calls of
    [os.Stat(d.path)], one per [PollInterval]; the result is what the
    goroutine sends on its channel, or [None] when the polls run out before
    it sends anything. *)
Fixpoint watch (lastStat : option FileInfo) (polls : list (FileInfo + error))
  : option watchResult :=
  match polls with
  | [] => None
  | inr err :: _ => Some {| wr_stat := None; wr_err := Some err |}
  | inl stat :: rest =>
      if changed lastStat stat then
        Some {| wr_stat := Some stat; wr_err := None |}
      else watch lastStat rest
  end.

(** [dep.ResponseMetadata]; [LastIndex] is a [uint64]. *)
Record ResponseMetadata : Type := mkResponseMetadata {
  LastIndex : Z;
  LastContact : Z;
}.

(** The conversion [uint64(x)] of an [int64]. *)
Definition uint64 (x : Z) : Z := (x mod 2 ^ 64)%Z.

(** A file query together with its field [stat], which [Fetch] reads and
    writes. *)
Record FileQueryState : Type := mkFileQueryState {
  fq_query : FileQuery;
  fq_stat : option FileInfo;
}.

(** The three results of [Fetch]. *)
Record FetchResult : Type := mkFetchResult {
  fr_value : any;
  fr_meta : option ResponseMetadata;
  fr_err : option error;
}.

(** [Fetch] of a query that is not stopped: it waits for [watch], then
    reads the file.  [readFile] is [ioutil.ReadFile] on the file system of
    that moment and [now] is [time.Now().Unix()].  The result is the query
    after the call and what the call returns, or [None] while [watch] has
    sent nothing. *)
Definition Fetch (d : FileQueryState) (polls : list (FileInfo + error))
    (readFile : string → string + error) (now : Z)
  : option (FileQueryState * FetchResult) :=
  match watch (fq_stat d) polls with
  | None => None
  | Some r =>
      match wr_err r with
      | Some err =>
          Some (d, {| fr_value := Str ""; fr_meta := None;
                      fr_err := Some (Wrap err (FileQuery_String (fq_query d))) |})
      | None =>
          match readFile (path (fq_query d)) with
          | inr err =>
              Some (d, {| fr_value := Str ""; fr_meta := None;
                          fr_err := Some (Wrap err (FileQuery_String (fq_query d))) |})
          | inl data =>
              Some ({| fq_query := fq_query d; fq_stat := wr_stat r |},
                    {| fr_value := Str data;
                       fr_meta := Some {| LastIndex := uint64 now;
                                          LastContact := 0 |};
                       fr_err := None |})
          end
      end
  end.

(** A query as [NewFileQuery] returns it: no stat yet. *)
Definition new_query (q : FileQuery) : FileQueryState :=
  {| fq_query := q; fq_stat := None |}.

(** A poll that shows the file as the query last saw it. *)
Definition same_as (last : FileInfo) (p : FileInfo + error) : Prop :=
  ∃ stat, p = inl stat ∧ Size stat = Size last ∧ ModTime stat = ModTime last.

(* ===================================================================== *)
(** * Properties *)

(** ** The store *)

Lemma clear_data_empty (m : gmap string any) : clear_data m = ∅.
Proof.
  unfold clear_data.
  cut (∀ acc : gmap string any,
        map_fold (λ (k : string) (_ : any) a, delete k a) acc m = acc ∖ m).
  { intros ->. apply map_eq; intros k.
    rewrite lookup_difference, lookup_empty. by destruct (m !! k). }
  induction m as [|k v m Hk Hfold IH] using map_first_key_ind; intros acc.
  - by rewrite map_fold_empty, map_difference_empty.
  - rewrite map_fold_insert_first_key by done. rewrite IH.
    apply map_eq; intros j. rewrite lookup_delete, !lookup_difference.
    destruct (decide (k = j)) as [->|Hne].
    + by rewrite lookup_insert_eq.
    + by rewrite lookup_insert_ne.
Qed.

Lemma clear_received_empty (m : gset string) : clear_received m = ∅.
Proof.
  unfold clear_received.
  cut (∀ acc : gset string,
        set_fold (λ (k : string) a, a ∖ {[k]}) acc m = acc ∖ m).
  { intros ->. set_solver. }
  intros acc.
  apply (set_fold_ind_L (λ r X, r = acc ∖ X)); [set_solver|].
  intros x X r Hx ->. set_solver.
Qed.

(** [forceSet] is [Save] under the key itself. *)
Lemma forceSet_Save (s : Store) (hashCode : string) (v : any) :
  forceSet s hashCode v = Save s hashCode v.
Proof. reflexivity. Qed.

Lemma Reset_empty (s : Store) : Reset s = NewStore.
Proof.
  unfold Reset, NewStore. by rewrite clear_data_empty, clear_received_empty.
Qed.

Section store_facts.
Context `{IDer D}.
Implicit Types (s : Store) (d : D) (v : any).

Lemma found_spec s d : found s d = true ↔ ider_String d ∈ receivedData s.
Proof. unfold found, Recall. by case_decide. Qed.

Lemma received_Save s d v k :
  k ∈ receivedData (Save s d v) ↔ k = ider_String d ∨ k ∈ receivedData s.
Proof. simpl. set_solver. Qed.

Lemma received_Delete s d k :
  k ∈ receivedData (Delete s d) ↔ k ≠ ider_String d ∧ k ∈ receivedData s.
Proof. simpl. set_solver. Qed.

Lemma received_Reset s k : k ∈ receivedData (Reset s) ↔ False.
Proof. rewrite Reset_empty. simpl. set_solver. Qed.

Lemma run_ops_snoc (ops : list (StoreOp D)) o s :
  run_ops (ops ++ [o]) s = apply_op (run_ops ops s) o.
Proof. unfold run_ops. by rewrite fold_left_app. Qed.

Lemma saved_and_kept_nil id : ¬ saved_and_kept (D:=D) id [].
Proof. intros (pre & d & v & post & Heq & _). by destruct pre. Qed.

Lemma saved_and_kept_snoc id (ops : list (StoreOp D)) o :
  saved_and_kept id (ops ++ [o]) ↔
  match o with
  | OpSave d _ => ider_String d = id ∨ saved_and_kept id ops
  | OpDelete d => ider_String d ≠ id ∧ saved_and_kept id ops
  | OpReset => False
  end.
Proof.
  split.
  - intros (pre & d & v & post & Heq & Hid & Hpost).
    destruct post as [|p post _] using rev_ind.
    + apply app_inj_tail in Heq as [-> ->]. by left.
    + rewrite app_comm_cons, app_assoc in Heq.
      apply app_inj_tail in Heq as [-> ->].
      apply Forall_app in Hpost as [Hpost Hp].
      rewrite Forall_singleton in Hp.
      assert (saved_and_kept id (pre ++ OpSave d v :: post))
        by (by exists pre, d, v, post).
      destruct p; simpl in Hp; [by right|by split|by destruct Hp].
  - destruct o as [d v|d|].
    + intros [Hid|(pre & d' & v' & post & -> & Hid & Hpost)].
      * exists ops, d, v, []. by rewrite Forall_nil.
      * exists pre, d', v', (post ++ [OpSave d v]).
        rewrite <- app_assoc. split_and!; [done..|].
        apply Forall_app; split; [done|]. apply Forall_singleton. by intros [].
    + intros [Hne (pre & d' & v' & post & -> & Hid & Hpost)].
      exists pre, d', v', (post ++ [OpDelete d]).
      rewrite <- app_assoc. split_and!; [done..|].
      apply Forall_app; split; [done|]. by apply Forall_singleton.
    + done.
Qed.

Lemma found_run_ops (ops : list (StoreOp D)) d :
  found (run_ops ops NewStore) d = true ↔ saved_and_kept (ider_String d) ops.
Proof.
  rewrite found_spec.
  induction ops as [|o ops IH] using rev_ind.
  - split; [set_solver|]. intros []%saved_and_kept_nil.
  - rewrite run_ops_snoc, saved_and_kept_snoc. destruct o as [d' v|d'|]; simpl apply_op.
    + rewrite received_Save, IH. naive_solver.
    + rewrite received_Delete, IH. naive_solver.
    + by rewrite received_Reset.
Qed.
End store_facts.

Section store_round_trips.
Context `{IDer D}.
Implicit Types (s : Store) (d : D) (v : any).

Lemma Recall_Save s d v : Recall (Save s d v) d = (v, true).
Proof.
  unfold Recall. rewrite decide_True by (apply received_Save; by left).
  simpl. by rewrite lookup_insert_eq.
Qed.

Lemma Recall_not_received s d :
  ider_String d ∉ receivedData s → Recall s d = (Nil, false).
Proof. intros Hd. unfold Recall. by rewrite decide_False. Qed.

Lemma Recall_Delete s d : Recall (Delete s d) d = (Nil, false).
Proof. apply Recall_not_received. rewrite received_Delete. naive_solver. Qed.

Lemma Recall_Reset s d : Recall (Reset s) d = (Nil, false).
Proof. apply Recall_not_received. rewrite received_Reset. tauto. Qed.

(** C1: [Recall] reports an id as found exactly when the history of the
    store holds a [Save] of that id with no [Delete] of it and no [Reset]
    after it; [Save] then [Delete] leaves [(nil, false)], and after [Reset]
    every id recalls [(nil, false)]. *)
Theorem found_iff_saved_and_kept (ops : list (StoreOp D)) s d v :
  (found (run_ops ops NewStore) d = true ↔ saved_and_kept (ider_String d) ops)
  ∧ Recall (Delete (Save s d v) d) d = (Nil, false)
  ∧ Recall (Reset s) d = (Nil, false).
Proof.
  split_and!.
  - apply found_run_ops.
  - apply Recall_Delete.
  - apply Recall_Reset.
Qed.

(** C3: [Save] then [Recall] gives back the saved value with the flag set,
    whatever the value; a saved nil is [(nil, true)] and differs from the
    [(nil, false)] of an id that was never received. *)
Theorem Save_then_Recall s d v :
  Recall (Save s d v) d = (v, true)
  ∧ Recall (Save s d Nil) d = (Nil, true)
  ∧ Recall NewStore d = (Nil, false)
  ∧ Recall (Save s d Nil) d ≠ Recall NewStore d.
Proof.
  assert (Recall NewStore d = (Nil, false)) as Hnew
    by (apply Recall_not_received; set_solver).
  split_and!; [apply Recall_Save..|done|].
  by rewrite Recall_Save, Hnew.
Qed.
End store_round_trips.

(** C8: the store reads nothing of a dependency but its [String()]: two
    dependencies, of any two types, with the same string are saved,
    recalled and deleted alike. *)
Theorem equal_identity_interchangeable `{IDer D1, IDer D2}
    (s : Store) (d1 : D1) (d2 : D2) (v : any) :
  ider_String d1 = ider_String d2 →
  Save s d1 v = Save s d2 v
  ∧ Recall s d1 = Recall s d2
  ∧ Delete s d1 = Delete s d2.
Proof.
  intros Hid. unfold Save, Recall, Delete. by rewrite Hid.
Qed.

Lemma equal_identity_interchangeable_witness :
  let q := DepFile {| path := "/etc/hosts" |} in
  let k := "file(/etc/hosts)" in
  let s := Save NewStore k (Str "127.0.0.1 localhost") in
  Save s q Nil = Save s k Nil
  ∧ Recall s q = Recall s k
  ∧ Delete s q = Delete s k.
Proof.
  apply (equal_identity_interchangeable (D1:=Dependency) (D2:=string)).
  reflexivity.
Defined.

(** ** The template identifier *)

Example md5_of_empty :
  hex_EncodeToString (md5_Sum (bytes "")) = "d41d8cd98f00b204e9800998ecf8427e".
Proof. vm_compute. reflexivity. Qed.

Example md5_of_abc :
  hex_EncodeToString (md5_Sum (bytes "abc"))
  = "900150983cd24fb0d6963f7d28e17f72".
Proof. vm_compute. reflexivity. Qed.

Example md5_of_two_blocks :
  hex_EncodeToString (md5_Sum (repeat 121%Z 64))
  = "b0c4864f4e28d2d76929c38d87db7ed5".
Proof. vm_compute. reflexivity. Qed.

(** C6: the identifier is the hex form of the MD5 of the bytes of
    [Contents]; [NewTemplate] stores it and [ID] only reads the stored field;
    two inputs with the same [Contents] give the same identifier, whatever
    their other fields. *)
Theorem ID_is_hex_md5_of_Contents (i1 i2 : TemplateInput) (t : Template) :
  ID (NewTemplate i1) = hex_EncodeToString (md5_Sum (bytes (Contents i1)))
  ∧ ID t = hexMD5 t
  ∧ (Contents i1 = Contents i2 → ID (NewTemplate i1) = ID (NewTemplate i2)).
Proof.
  split_and!.
  - reflexivity.
  - reflexivity.
  - intros Hsame. unfold ID, NewTemplate. simpl. by rewrite Hsame.
Qed.

Lemma ID_is_hex_md5_of_Contents_witness :
  let i1 := {| Contents := "abc"; ErrMissingKey := false;
               LeftDelim := "{{"; RightDelim := "}}";
               FuncMapMerge := ∅; SandboxPath := ""; Renderer_ := None |} in
  let i2 := {| Contents := "abc"; ErrMissingKey := true;
               LeftDelim := "<<"; RightDelim := ">>";
               FuncMapMerge := ∅; SandboxPath := "/srv"; Renderer_ := None |} in
  ID (NewTemplate i1) = "900150983cd24fb0d6963f7d28e17f72"
  ∧ ID (NewTemplate i1) = ID (NewTemplate i2).
Proof.
  intros i1 i2.
  destruct (ID_is_hex_md5_of_Contents i1 i2 (NewTemplate i1))
    as (Hid & _ & Hsame).
  split.
  - rewrite Hid. vm_compute. reflexivity.
  - apply Hsame. reflexivity.
Defined.

(** ** The file helper *)

Lemma TrimSpace_empty : TrimSpace "" = "".
Proof. reflexivity. Qed.


Lemma length_zero_iff (s : string) : (String.length s =? 0)%nat = true ↔ s = "".
Proof. destruct s; simpl; split; congruence. Qed.

Lemma NewFileQuery_trimmed (s : string) :
  TrimSpace s ≠ "" → NewFileQuery s = inl {| path := TrimSpace s |}.
Proof. intros Hs. unfold NewFileQuery. by rewrite decide_False. Qed.

Lemma NewFileQuery_blank (s : string) :
  TrimSpace s = "" →
  NewFileQuery s = inr (NewError ("file: invalid format: " +:+ Sprintf_q "")).
Proof. intros Hs. unfold NewFileQuery. rewrite Hs. by rewrite decide_True. Qed.

(** A path of white space only passes the emptiness test and, without a
    sandbox, the sandbox check, and is then refused by [NewFileQuery]:
    nothing is added to either set. *)
Lemma fileFunc_blank_path fp (r used missing : nat) (s : string) (w : World) :
  s ≠ "" → TrimSpace s = "" →
  run_h (fileFunc fp r used missing "" s) w
  = (w, Returned (Str "")
          (Some (NewError ("file: invalid format: " +:+ Sprintf_q "")))).
Proof.
  intros Hne Hblank. unfold fileFunc.
  destruct (String.length s =? 0)%nat eqn:Hlen.
  { by apply length_zero_iff in Hlen. }
  unfold pathInSandbox. rewrite decide_False by (intros Hn; by apply Hn).
  by rewrite (NewFileQuery_blank s Hblank).
Qed.

(** C10: on the empty string the helper returns [("", nil)] at once,
    whatever the sandbox root and the file system, and changes nothing:
    neither set, no lookup. *)
Theorem fileFunc_empty_string fp (r used missing : nat) (sandbox : string)
    (w : World) :
  fileFunc fp r used missing sandbox "" = HReturn (Str "") None
  ∧ run_h (fileFunc fp r used missing sandbox "") w
    = (w, Returned (Str "") None).
Proof. split; reflexivity. Qed.

(** ** The function map *)

Section funcMap_facts.
Variable fp : Filepath.
Variable other_helpers : funcMapInput → gmap string fval.
Implicit Types (i : funcMapInput) (k : string) (v : fval).

Lemma calls_for_app k (l1 l2 : list binding_call) :
  calls_for k (l1 ++ l2) = calls_for k l1 ++ calls_for k l2.
Proof. unfold calls_for. apply filter_app. Qed.

(** The loop, read entry by entry: under a key of [funcMapMerge] lies the
    installed entry, under any other key the table's own; and every
    dep-binding entry was invoked once, with the input's three pointers. *)
Lemma funcMap_traced_spec i :
  (∀ k, (funcMap_traced fp other_helpers i).1 !! k
        = match i_funcMapMerge i !! k with
          | Some v => Some (installed i v)
          | None => builtin fp other_helpers i !! k
          end)
  ∧ (∀ k, calls_for k (funcMap_traced fp other_helpers i).2
          = match i_funcMapMerge i !! k with
            | Some (DepBinding _) => [(k, (i_store i, i_used i, i_missing i))]
            | _ => []
            end).
Proof.
  unfold funcMap_traced.
  apply (map_fold_weak_ind
    (λ (acc : gmap string fval * list binding_call) (m : gmap string fval),
       (∀ k, acc.1 !! k = match m !! k with
                          | Some v => Some (installed i v)
                          | None => builtin fp other_helpers i !! k
                          end)
       ∧ (∀ k, calls_for k acc.2
               = match m !! k with
                 | Some (DepBinding _) =>
                     [(k, (i_store i, i_used i, i_missing i))]
                 | _ => []
                 end))).
  - split; intros k; by rewrite lookup_empty.
  - intros j x m [fm calls] Hfresh [IHmap IHcalls]. simpl in IHmap, IHcalls.
    split; intros k.
    + destruct (decide (j = k)) as [->|Hne].
      * rewrite lookup_insert_eq. destruct x; simpl; by rewrite lookup_insert_eq.
      * rewrite lookup_insert_ne by done. rewrite <- IHmap.
        destruct x; simpl; by rewrite lookup_insert_ne.
    + destruct (decide (j = k)) as [->|Hne].
      * rewrite lookup_insert_eq. specialize (IHcalls k).
        rewrite Hfresh in IHcalls. destruct x as [f|f]; simpl; [done|].
        rewrite calls_for_app, IHcalls. unfold calls_for.
        rewrite filter_cons_True by done. by rewrite filter_nil.
      * rewrite lookup_insert_ne by done. rewrite <- IHcalls.
        destruct x as [f|f]; simpl; [done|].
        rewrite calls_for_app. unfold calls_for at 2.
        rewrite filter_cons_False by (simpl; congruence).
        rewrite filter_nil. by rewrite app_nil_r.
Qed.

Lemma funcMap_lookup i k :
  funcMap fp other_helpers i !! k
  = match i_funcMapMerge i !! k with
    | Some v => Some (installed i v)
    | None => builtin fp other_helpers i !! k
    end.
Proof. apply funcMap_traced_spec. Qed.

Lemma funcMap_file i :
  i_funcMapMerge i !! "file" = None →
  funcMap fp other_helpers i !! "file"
  = Some (Fn (string_args (fileFunc fp (i_store i) (i_used i) (i_missing i)
                                    (i_sandboxPath i)))).
Proof.
  intros Hnone. rewrite funcMap_lookup, Hnone. unfold builtin.
  by rewrite lookup_insert_eq.
Qed.
End funcMap_facts.

(** C7: for every entry of the caller's map, the function map holds the
    installed entry: for an entry of the dep-binding type the value it
    returned when called with the recaller and the [used] and [missing] sets
    of the input, a call made exactly once; for any other entry the entry
    itself.  For the input that [Execute] builds, the three arguments are
    the recaller it was given and the two sets of this execution. *)
Theorem funcMap_installs_entries fp other_helpers
    (i : funcMapInput) (k : string) (v : fval) :
  i_funcMapMerge i !! k = Some v →
  funcMap fp other_helpers i !! k
  = Some (match v with
          | DepBinding f => f (i_store i) (i_used i) (i_missing i)
          | Fn _ => v
          end)
  ∧ calls_for k (funcMap_traced fp other_helpers i).2
    = match v with
      | DepBinding _ => [(k, (i_store i, i_used i, i_missing i))]
      | Fn _ => []
      end
  ∧ ∀ t r used missing,
      i = Execute_input t r used missing →
      funcMap fp other_helpers i !! k
      = Some (match v with
              | DepBinding f => f r used missing
              | Fn _ => v
              end).
Proof.
  intros Hk.
  assert (funcMap fp other_helpers i !! k = Some (installed i v)) as Hmap
    by (by rewrite funcMap_lookup, Hk).
  split_and!.
  - rewrite Hmap. by destruct v.
  - destruct (funcMap_traced_spec fp other_helpers i) as [_ Hcalls].
    rewrite Hcalls, Hk. by destruct v.
  - intros t r used missing Hi. rewrite Hmap, Hi. by destruct v.
Qed.

Lemma funcMap_installs_entries_witness :
  let i := {| i_store := 0; i_env := [];
              i_funcMapMerge := {["hosts" := DepBinding hosts_binder]};
              i_sandboxPath := ""; i_used := 1; i_missing := 2 |} in
  funcMap unix_no_symlinks no_other_helpers i !! "hosts"
  = Some (hosts_binder 0 1 2)
  ∧ calls_for "hosts" (funcMap_traced unix_no_symlinks no_other_helpers i).2
    = [("hosts", (0, 1, 2))].
Proof.
  intros i.
  destruct (funcMap_installs_entries unix_no_symlinks no_other_helpers i
              "hosts" (DepBinding hosts_binder)) as (Hmap & Hcalls & _).
  - apply lookup_singleton_eq.
  - split; [exact Hmap|exact Hcalls].
Defined.

(** ** The sandbox *)

Section sandbox.
Variable fp : Filepath.
Variable other_helpers : funcMapInput → gmap string fval.
Variable Parse :
  string → string → string → bool → gset string → string → tprog + error.

Lemma pathInSandbox_no_sandbox path : pathInSandbox fp "" path = None.
Proof. unfold pathInSandbox. by rewrite decide_False by (intros Hn; by apply Hn). Qed.

Lemma pathInSandbox_inside sandbox path resolved rel :
  EvalSymlinks fp path = inl resolved →
  Rel fp sandbox resolved = inl rel →
  HasPrefix rel ".." = false →
  pathInSandbox fp sandbox path = None.
Proof.
  intros Heval Hrel Hpre. unfold pathInSandbox.
  case_decide; [|done]. by rewrite Heval, Hrel, Hpre.
Qed.

Lemma pathInSandbox_outside sandbox path resolved rel :
  sandbox ≠ "" →
  EvalSymlinks fp path = inl resolved →
  Rel fp sandbox resolved = inl rel →
  HasPrefix rel ".." = true →
  pathInSandbox fp sandbox path = Some (outside_of_sandbox path).
Proof.
  intros Hsandbox Heval Hrel Hpre. unfold pathInSandbox.
  rewrite decide_True by done. by rewrite Heval, Hrel, Hpre.
Qed.

Lemma fileFunc_refused r used missing sandbox path err w :
  path ≠ "" →
  pathInSandbox fp sandbox path = Some err →
  run_h (fileFunc fp r used missing sandbox path) w
  = (w, Returned (Str "") (Some err)).
Proof.
  intros Hpath Hcheck. unfold fileFunc.
  destruct (String.length path =? 0)%nat eqn:Hlen.
  { by apply length_zero_iff in Hlen. }
  by rewrite Hcheck.
Qed.

Lemma exec_file_error fm r used missing sandbox path err k buf w :
  fm !! "file" = Some (Fn (string_args (fileFunc fp r used missing sandbox))) →
  run_h (fileFunc fp r used missing sandbox path) w
  = (w, Returned (Str "") (Some err)) →
  exec fm (TCall "file" [Str path] k) buf w = (w, inr (CallError "file" err)).
Proof. intros Hfile Hrun. simpl. rewrite Hfile. simpl. by rewrite Hrun. Qed.
End sandbox.

(** C4: with a sandbox root set, when the path with its symbolic links
    resolved, taken relative to the root, begins with [..], [pathInSandbox]
    returns the error ['<path>' is outside of sandbox]; the file helper
    returns that error, and [Execute] returns it as the execution error of
    the call of [file]. *)
Theorem pathInSandbox_escape fp other_helpers Parse binder_effect
    (sandbox path resolved rel : string) :
  sandbox ≠ "" →
  EvalSymlinks fp path = inl resolved →
  Rel fp sandbox resolved = inl rel →
  HasPrefix rel ".." = true →
  pathInSandbox fp sandbox path
  = Some (NewError ("'" +:+ path +:+ "' is outside of sandbox"))
  ∧ (path ≠ "" → ∀ r used missing w,
       run_h (fileFunc fp r used missing sandbox path) w
       = (w, Returned (Str "") (Some (outside_of_sandbox path))))
  ∧ (path ≠ "" → ∀ t r w k,
       sandboxPath t = sandbox →
       funcMapMerge t !! "file" = None →
       (∀ names, Parse (ID t) (leftDelim t) (rightDelim t) (errMissingKey t)
                       names (contents t)
                 = inl (TCall "file" [Str path] k)) →
       (Execute fp other_helpers Parse binder_effect t r w).2
       = inr (Wrap (CallError "file" (outside_of_sandbox path)) "execute")).
Proof.
  intros Hsandbox Heval Hrel Hpre.
  pose proof (pathInSandbox_outside fp _ _ _ _ Hsandbox Heval Hrel Hpre)
    as Hcheck.
  split_and!; [exact Hcheck| |].
  - intros Hpath r used missing w. by apply fileFunc_refused.
  - intros Hpath t r w k Hbox Hmerge Hparse. unfold Execute. simpl.
    rewrite Hparse.
    erewrite exec_file_error; [done| |].
    + rewrite funcMap_file by done. simpl. by rewrite Hbox.
    + by apply fileFunc_refused.
Qed.

Lemma pathInSandbox_escape_witness :
  let path := "/s/a/../../etc/passwd" in
  let t := template_of (file_action path) "/s" ∅ in
  pathInSandbox unix_no_symlinks "/s" path
  = Some (NewError "'/s/a/../../etc/passwd' is outside of sandbox")
  ∧ run_h (fileFunc unix_no_symlinks 0 0 1 "/s" path) (helper_world NewStore)
    = (helper_world NewStore,
       Returned (Str "")
         (Some (NewError "'/s/a/../../etc/passwd' is outside of sandbox")))
  ∧ (Execute unix_no_symlinks no_other_helpers (parse_to (file_call path))
       no_binder_effect t 0 (world_of NewStore)).2
    = inr (Wrap (CallError "file"
                   (NewError "'/s/a/../../etc/passwd' is outside of sandbox"))
                "execute").
Proof.
  intros path t.
  destruct (pathInSandbox_escape unix_no_symlinks no_other_helpers
              (parse_to (file_call path)) no_binder_effect "/s" path
              "/etc/passwd" "../etc/passwd")
    as (Hcheck & Hhelper & Hexec); [done|reflexivity..|].
  split_and!.
  - exact Hcheck.
  - apply Hhelper. done.
  - eapply Hexec; [done|reflexivity..].
Defined.

(** ** Lookups of the file helper *)


Lemma deref_store_same (p : nat) (s : DepSet) (w : World) :
  is_Some (depsets w !! p) → deref (store_DepSet p s w) p = s.
Proof.
  intros Hp. unfold deref, store_DepSet. simpl.
  apply lookup_lt_is_Some_1 in Hp. by rewrite list_lookup_insert_eq.
Qed.

Lemma deref_store_other (p q : nat) (s : DepSet) (w : World) :
  p ≠ q → deref (store_DepSet p s w) q = deref w q.
Proof.
  intros Hpq. unfold deref, store_DepSet. simpl.
  by rewrite list_lookup_insert_ne.
Qed.

Lemma deref_record_lookup (r : nat) (key : string) (w : World) (p : nat) :
  deref (record_lookup r key w) p = deref w p.
Proof. reflexivity. Qed.

Lemma stores_store_DepSet (p : nat) (s : DepSet) (w : World) :
  stores (store_DepSet p s w) = stores w.
Proof. reflexivity. Qed.

Lemma deref_Some (w : World) (p : nat) (s : DepSet) :
  depsets w !! p = Some s → deref w p = s.
Proof. intros Hp. unfold deref. by rewrite Hp. Qed.




(** ** Execute, step by step *)

Section Execute_steps.
Variable fp : Filepath.
Variable other_helpers : funcMapInput → gmap string fval.
Variable Parse :
  string → string → string → bool → gset string → string → tprog + error.
Variable binder_effect : binding_call → World → World.

(** [Execute] parses with the names of [Execute_funcs] and runs the
    template from [Execute_start]; its two sets are at the two addresses
    after those of the world it was entered with. *)
Lemma Execute_unfold (t : Template) (r : nat) (w : World) :
  Execute fp other_helpers Parse binder_effect t r w
  = match Parse (ID t) (leftDelim t) (rightDelim t) (errMissingKey t)
                (dom (Execute_funcs fp other_helpers t r w)) (contents t) with
    | inr err =>
        (Execute_start fp other_helpers binder_effect t r w,
         inr (Wrap err "parse"))
    | inl tmpl =>
        match exec (Execute_funcs fp other_helpers t r w) tmpl ""
                   (Execute_start fp other_helpers binder_effect t r w) with
        | (w', inr err) => (w', inr (Wrap err "execute"))
        | (w', inl b) =>
            (w', inl {| Used := deref w' (length (depsets w));
                        Missing := deref w' (S (length (depsets w)));
                        Output := b |})
        end
    end.
Proof.
  unfold Execute, Execute_funcs, Execute_start, Execute_bindings, alloc_DepSet.
  cbn [fst snd depsets]. rewrite length_app. simpl length.
  by rewrite Nat.add_1_r.
Qed.

Lemma alloc_twice (w : World) :
  let w2 := (alloc_DepSet (alloc_DepSet w).1).1 in
  depsets w2 = depsets w ++ [NewDepSet; NewDepSet]
  ∧ stores w2 = stores w ∧ lookups w2 = lookups w.
Proof. simpl. by rewrite <- app_assoc. Qed.
End Execute_steps.

Lemma calls_satisfy_impl (P Q : hcomp → Prop) fm (p : tprog) (w : World) :
  (∀ c, P c → Q c) → calls_satisfy P fm p w → calls_satisfy Q fm p w.
Proof.
  intros HPQ. revert w.
  induction p as [|s k IH|name args k IH|e]; intros w; simpl; try done.
  - apply IH.
  - destruct (fm !! name) as [[f|f]|]; [|done..].
    intros [HP Hrest]. split; [by apply HPQ|].
    destruct (run_h (f args) w) as [w' [v [err|]|msg]]; try done.
    by apply IH.
Qed.

Lemma binders_satisfy_impl (P Q : hcomp → Prop) binder_effect calls :
  (∀ c, P c → Q c) →
  binders_satisfy P binder_effect calls → binders_satisfy Q binder_effect calls.
Proof.
  intros HPQ Hall. unfold binders_satisfy. eapply Forall_impl; [exact Hall|].
  intros c (body & HP & Hrun). exists body. split; [by apply HPQ|done].
Qed.

(** A function map all of whose functions satisfy [P] only makes calls
    that satisfy [P]. *)
Lemma calls_satisfy_all (P : hcomp → Prop) fm (p : tprog) (w : World) :
  (∀ name f args, fm !! name = Some (Fn f) → P (f args)) →
  calls_satisfy P fm p w.
Proof.
  intros Hfm. revert w.
  induction p as [|s k IH|name args k IH|e]; intros w; simpl; try done.
  destruct (fm !! name) as [[f|f]|] eqn:Hname; [|done..].
  split; [by eapply Hfm|].
  by destruct (run_h (f args) w) as [w' [v [err|]|msg]].
Qed.

(** ** Used and missing sets of an execution *)

Lemma ids_Add_iff (s : DepSet) (d : Dependency) (id : string) :
  id ∈ ids (Add s d) ↔ id ∈ ids s ∨ id = ider_String d.
Proof.
  unfold Add. case_decide as Hin.
  - split; [by left|]. intros [Hid| ->]; done.
  - unfold ids. simpl. rewrite map_app, elem_of_app. simpl.
    rewrite list_elem_of_singleton. done.
Qed.

Lemma ids_filter_absent (S : Store) (l : list Dependency) (id : string) :
  id ∈ map ider_String (filter (absent_from S) l)
  ↔ id ∈ map ider_String l ∧ id ∉ receivedData S.
Proof.
  rewrite !list_elem_of_fmap. split.
  - intros (d & -> & [Habs Hd]%list_elem_of_filter). split; [by exists d|done].
  - intros [(d & -> & Hd) Habs]. exists d. split; [done|].
    by apply list_elem_of_filter.
Qed.

(** Adding to [used] a dependency the store has received leaves the
    filtered list as it was. *)
Lemma filter_Add_received (S : Store) (U : DepSet) (d : Dependency) :
  ider_String d ∈ receivedData S →
  filter (absent_from S) (items (Add U d)) = filter (absent_from S) (items U).
Proof.
  intros Hrec. unfold Add. case_decide; [done|]. simpl.
  rewrite filter_app, filter_cons_False by (unfold absent_from; tauto).
  by rewrite filter_nil, app_nil_r.
Qed.

(** Adding to both sets a dependency the store has not received keeps
    [missing] equal to the filtered [used]. *)
Lemma filter_Add_absent (S : Store) (U M : DepSet) (d : Dependency) :
  ider_String d ∉ receivedData S →
  items M = filter (absent_from S) (items U) →
  items (Add M d) = filter (absent_from S) (items (Add U d)).
Proof.
  intros Habs HM.
  assert (ider_String d ∈ ids M ↔ ider_String d ∈ ids U) as Hsame.
  { unfold ids. rewrite HM, ids_filter_absent. tauto. }
  unfold Add. destruct (decide (ider_String d ∈ ids U)) as [HU|HU].
  - by rewrite decide_True by tauto.
  - rewrite decide_False by tauto. simpl.
    rewrite filter_app, filter_cons_True by done.
    by rewrite filter_nil, HM.
Qed.

Lemma Recall_key_ok (S : Store) (key : string) :
  (Recall S key).2 = true ↔ key ∈ receivedData S.
Proof. exact (found_spec S key). Qed.

Section contract.
Variables (r used missing : nat) (S : Store) (w0 : World).
Hypothesis Hdistinct : used ≠ missing.
Hypothesis Hstore : stores w0 !! r = Some S.
Hypothesis Hused : used < length (depsets w0).
Hypothesis Hmissing : missing < length (depsets w0).

Abbreviation inv := (contract_inv r used missing S w0).

(** [used.Add(d)] followed by the lookup of a received id. *)
Lemma inv_used_received (w : World) (d : Dependency) :
  inv w →
  ider_String d ∈ receivedData S →
  inv (record_lookup r (ider_String d)
         (store_DepSet used (Add (deref w used) d) w)).
Proof.
  intros [Hst Hlen Hoth (T & Hlook & HT) Hmiss] Hrec.
  assert (is_Some (depsets w !! used)) as HU
    by (apply lookup_lt_is_Some_2; lia).
  split.
  - done.
  - simpl. by rewrite length_insert.
  - intros p Hp1 Hp2. simpl. rewrite list_lookup_insert_ne by done. by apply Hoth.
  - exists (T ++ [ider_String d]). split.
    + simpl. rewrite Hlook, map_app. by rewrite <- app_assoc.
    + intros id. rewrite deref_record_lookup, deref_store_same by done.
      rewrite ids_Add_iff, elem_of_app, list_elem_of_singleton, HT. done.
  - rewrite !deref_record_lookup, deref_store_same by done.
    rewrite deref_store_other by done.
    by rewrite filter_Add_received.
Qed.

(** [used.Add(d)], the lookup of an absent id, and [missing.Add(d)]. *)
Lemma inv_used_absent (w : World) (d : Dependency) :
  inv w →
  ider_String d ∉ receivedData S →
  let w1 := record_lookup r (ider_String d)
              (store_DepSet used (Add (deref w used) d) w) in
  inv (store_DepSet missing (Add (deref w1 missing) d) w1).
Proof.
  intros [Hst Hlen Hoth (T & Hlook & HT) Hmiss] Habs w1.
  assert (is_Some (depsets w !! used)) as HU
    by (apply lookup_lt_is_Some_2; lia).
  assert (is_Some (depsets w1 !! missing)) as HM1.
  { apply lookup_lt_is_Some_2. unfold w1. simpl. rewrite length_insert. lia. }
  assert (deref w1 used = Add (deref w used) d) as Hw1u
    by (unfold w1; by rewrite deref_record_lookup, deref_store_same).
  assert (deref w1 missing = deref w missing) as Hw1m
    by (unfold w1; by rewrite deref_record_lookup, deref_store_other).
  split.
  - done.
  - simpl. by rewrite !length_insert.
  - intros p Hp1 Hp2. simpl. rewrite !list_lookup_insert_ne by done.
    by apply Hoth.
  - exists (T ++ [ider_String d]). split.
    + simpl. rewrite Hlook, map_app. by rewrite <- app_assoc.
    + intros id. rewrite deref_store_other by done. rewrite Hw1u.
      rewrite ids_Add_iff, elem_of_app, list_elem_of_singleton, HT. done.
  - rewrite deref_store_same by done.
    rewrite deref_store_other by done. rewrite Hw1u, Hw1m.
    by apply filter_Add_absent.
Qed.

Lemma run_h_inv (c : hcomp) (w : World) :
  follows_contract r used missing c → inv w → inv (run_h c w).1.
Proof.
  intros Hc. revert w.
  induction Hc as [v err|msg|d k k' Hyes IHyes Hno Hk' IHk']; intros w Hinv.
  - done.
  - done.
  - pose proof Hinv as [Hst Hlen _ _ _].
    assert (is_Some (depsets w !! used)) as [U HU]
      by (apply lookup_lt_is_Some_2; lia).
    cbn [run_h]. rewrite HU, stores_store_DepSet, Hst, Hstore.
    rewrite <- (deref_Some w used U HU).
    pose proof (Recall_key_ok S (ider_String d)) as Hok.
    destruct (Recall S (ider_String d)) as [v [|]]; simpl in Hok.
    + apply IHyes, inv_used_received; [done|]. by apply Hok.
    + rewrite Hno. cbn [run_h].
      set (w1 := record_lookup r (ider_String d)
                   (store_DepSet used (Add (deref w used) d) w)).
      assert (is_Some (depsets w1 !! missing)) as [M1 HM1].
      { apply lookup_lt_is_Some_2. unfold w1. simpl. rewrite length_insert. lia. }
      rewrite HM1. rewrite <- (deref_Some w1 missing M1 HM1).
      apply IHk'. apply inv_used_absent; [done|].
      intros Hin. apply Hok in Hin. done.
Qed.

Lemma exec_inv fm (p : tprog) (buf : string) (w : World) :
  calls_satisfy (follows_contract r used missing) fm p w →
  inv w → inv (exec fm p buf w).1.
Proof.
  revert buf w.
  induction p as [|s k IH|name args k IH|e]; intros buf w Hcalls Hinv; simpl.
  - done.
  - by apply IH.
  - simpl in Hcalls.
    destruct (fm !! name) as [[f|f]|] eqn:Hname; [|done..].
    destruct Hcalls as [Hf Hrest].
    pose proof (run_h_inv (f args) w Hf Hinv) as Hrun.
    destruct (run_h (f args) w) as [w' [v [err|]|msg]]; simpl in *; [done| |done].
    by apply IH.
  - done.
Qed.

Lemma bind_all_inv binder_effect (calls : list binding_call) (w : World) :
  binders_satisfy (follows_contract r used missing) binder_effect calls →
  inv w → inv (bind_all binder_effect calls w).
Proof.
  intros Hcalls. revert w.
  induction Hcalls as [|c calls (body & Hbody & Hrun) _ IH]; intros w Hinv.
  - done.
  - unfold bind_all. simpl. apply IH. rewrite Hrun. by apply run_h_inv.
Qed.
End contract.

(** The built-in file helper follows the contract. *)
Lemma fileFunc_follows_contract fp (r used missing : nat)
    (sandbox : string) (args : list any) :
  follows_contract r used missing
    (string_args (fileFunc fp r used missing sandbox) args).
Proof.
  unfold string_args.
  destruct args as [|[|s|n] [|a args]]; try apply fc_return.
  unfold fileFunc.
  destruct (String.length s =? 0)%nat; [apply fc_return|].
  destruct (pathInSandbox fp sandbox s); [apply fc_return|].
  destruct (NewFileQuery s) as [q|err]; [|apply fc_return].
  apply (fc_dependency r used missing (DepFile q) _
           (λ _, HReturn (Str "") None)).
  - intros [|v|n]; constructor.
  - done.
  - intros v. apply fc_return.
Qed.

(** A function map follows the contract when the caller's entries, once
    installed, and the helpers outside this source tree do. *)
Lemma funcMap_follows_contract fp other_helpers (i : funcMapInput) :
  helpers_follow_contract (i_store i) (i_used i) (i_missing i)
    (installed i <$> i_funcMapMerge i) →
  helpers_follow_contract (i_store i) (i_used i) (i_missing i)
    (other_helpers i) →
  helpers_follow_contract (i_store i) (i_used i) (i_missing i)
    (funcMap fp other_helpers i).
Proof.
  intros Hmerge Hother name f args. rewrite funcMap_lookup.
  destruct (i_funcMapMerge i !! name) as [v|] eqn:Hv.
  - intros Hf. apply (Hmerge name f args).
    by rewrite lookup_fmap, Hv.
  - unfold builtin. destruct (decide (name = "file")) as [->|Hne].
    + rewrite lookup_insert_eq. intros [= <-].
      apply fileFunc_follows_contract.
    + rewrite lookup_insert_ne by done. apply Hother.
Qed.

Section Execute_sets.
Variable fp : Filepath.
Variable other_helpers : funcMapInput → gmap string fval.
Variable Parse :
  string → string → string → bool → gset string → string → tprog + error.
Variable binder_effect : binding_call → World → World.

(** The world in which the template runs: the one [Execute] was entered
    with, and two new empty sets. *)
Lemma inv_after_alloc (r : nat) (S : Store) (w : World) :
  let used := length (depsets w) in
  let missing := Datatypes.S used in
  let w2 := (alloc_DepSet (alloc_DepSet w).1).1 in
  depsets w2 = depsets w ++ [NewDepSet; NewDepSet]
  ∧ stores w2 = stores w ∧ lookups w2 = lookups w
  ∧ contract_inv r used missing S w2 w2.
Proof.
  intros used missing w2.
  assert (depsets w2 = depsets w ++ [NewDepSet; NewDepSet]) as Hsets
    by (unfold w2; simpl; by rewrite <- app_assoc).
  assert (deref w2 used = NewDepSet) as Hu.
  { unfold deref. rewrite Hsets, lookup_app_r by (unfold used; lia).
    by replace (used - length (depsets w)) with 0 by (unfold used; lia). }
  assert (deref w2 missing = NewDepSet) as Hm.
  { unfold deref. rewrite Hsets, lookup_app_r by (unfold missing, used; lia).
    by replace (missing - length (depsets w)) with 1
      by (unfold missing, used; lia). }
  split_and!; [done..|]. split; try done.
  - exists []. split; [simpl; by rewrite app_nil_r|].
    intros id. rewrite Hu. unfold ids. simpl. split; by intros ?%elem_of_nil.
  - by rewrite Hu, Hm.
Qed.

Lemma Execute_inv (t : Template) (r : nat) (w : World) (S : Store)
    (res : ExecuteResult) :
  let used := length (depsets w) in
  let missing := Datatypes.S used in
  let w' := (Execute fp other_helpers Parse binder_effect t r w).1 in
  stores w !! r = Some S →
  binders_satisfy (follows_contract r used missing) binder_effect
    (Execute_bindings fp other_helpers t r w) →
  (∀ tmpl,
     Parse (ID t) (leftDelim t) (rightDelim t) (errMissingKey t)
           (dom (Execute_funcs fp other_helpers t r w)) (contents t)
     = inl tmpl →
     calls_satisfy (follows_contract r used missing)
       (Execute_funcs fp other_helpers t r w) tmpl
       (Execute_start fp other_helpers binder_effect t r w)) →
  (Execute fp other_helpers Parse binder_effect t r w).2 = inl res →
  contract_inv r used missing S (alloc_DepSet (alloc_DepSet w).1).1 w'
  ∧ Used res = deref w' used ∧ Missing res = deref w' missing.
Proof.
  intros used missing w' Hstore Hbind Hcalls.
  pose proof (inv_after_alloc r S w) as Halloc. cbv zeta in Halloc.
  destruct Halloc as (Hsets & Hstores & _ & Hinv).
  fold used in Hinv. fold missing in Hinv.
  set (w2 := (alloc_DepSet (alloc_DepSet w).1).1) in *.
  rewrite <- Hstores in Hstore.
  assert (used < length (depsets w2) ∧ missing < length (depsets w2))
    as [Hu Hm].
  { rewrite Hsets, length_app. simpl. unfold missing, used. lia. }
  assert (used ≠ missing) as Hne by (unfold missing; lia).
  pose proof (bind_all_inv r used missing S w2 Hne Hstore Hu Hm
                binder_effect _ w2 Hbind Hinv) as Hstart.
  change (bind_all binder_effect (Execute_bindings fp other_helpers t r w) w2)
    with (Execute_start fp other_helpers binder_effect t r w) in Hstart.
  unfold w'. rewrite Execute_unfold.
  destruct (Parse _ _ _ _ _ _) as [tmpl|err] eqn:Hparse; [|done].
  pose proof (exec_inv r used missing S w2 Hne Hstore Hu Hm
                _ tmpl "" _ (Hcalls _ eq_refl) Hstart) as Hexec.
  destruct (exec _ tmpl "" _) as [w3 [b|err]]; simpl in *; [|done].
  intros [= <-]. by simpl.
Qed.
End Execute_sets.

(** C2, as the code has it: when [Execute] returns without error and every
    body that it runs with the recaller and the two sets follows the helper
    contract (the body of each caller's binder while [funcMap] binds it,
    and the body of each helper that the template calls, as the built-in
    file helper does), the ids of [used] are exactly the keys looked up
    through the recaller during this execution, [missing] is [used] without
    the dependencies whose id the store has received, hence a subset of it,
    and both are sets allocated by this execution, at addresses that did
    not exist before, while the sets that existed are untouched. *)
Theorem Execute_used_and_missing fp other_helpers Parse binder_effect
    (t : Template) (r : nat) (w : World) (S : Store) (res : ExecuteResult) :
  stores w !! r = Some S →
  binders_satisfy
    (follows_contract r (length (depsets w)) (Datatypes.S (length (depsets w))))
    binder_effect (Execute_bindings fp other_helpers t r w) →
  (∀ tmpl,
     Parse (ID t) (leftDelim t) (rightDelim t) (errMissingKey t)
           (dom (Execute_funcs fp other_helpers t r w)) (contents t)
     = inl tmpl →
     calls_satisfy
       (follows_contract r (length (depsets w))
          (Datatypes.S (length (depsets w))))
       (Execute_funcs fp other_helpers t r w) tmpl
       (Execute_start fp other_helpers binder_effect t r w)) →
  (Execute fp other_helpers Parse binder_effect t r w).2 = inl res →
  let w' := (Execute fp other_helpers Parse binder_effect t r w).1 in
  (∃ touched, lookups w' = lookups w ++ map (pair r) touched
              ∧ ∀ id, id ∈ ids (Used res) ↔ id ∈ touched)
  ∧ ids (Missing res) ⊆ ids (Used res)
  ∧ (∀ id, id ∈ ids (Missing res)
           ↔ id ∈ ids (Used res) ∧ id ∉ receivedData S)
  ∧ items (Missing res) = filter (absent_from S) (items (Used res))
  ∧ depsets w !! length (depsets w) = None
  ∧ depsets w' !! length (depsets w) = Some (Used res)
  ∧ depsets w' !! Datatypes.S (length (depsets w)) = Some (Missing res)
  ∧ take (length (depsets w)) (depsets w') = depsets w.
Proof.
  intros Hstore Hbind Hcalls Hres w'.
  destruct (Execute_inv fp other_helpers Parse binder_effect t r w S res
              Hstore Hbind Hcalls Hres)
    as ([_ Hlen Hoth (T & Hlook & HT) Hmiss] & HU & HM).
  fold w' in Hlen, Hoth, Hlook, HT, Hmiss, HU, HM.
  pose proof (inv_after_alloc r S w) as Halloc. cbv zeta in Halloc.
  destruct Halloc as (Hsets & _ & Hlook2 & _).
  rewrite Hsets in Hlen, Hoth. rewrite Hlook2 in Hlook.
  rewrite length_app in Hlen. simpl in Hlen.
  rewrite <- HU in HT, Hmiss. rewrite <- HM in Hmiss.
  assert (∀ id, id ∈ ids (Missing res)
                ↔ id ∈ ids (Used res) ∧ id ∉ receivedData S) as Hids.
  { intros id. unfold ids. rewrite Hmiss. apply ids_filter_absent. }
  split_and!.
  - by exists T.
  - intros id Hid. by apply Hids in Hid as [Hid _].
  - exact Hids.
  - exact Hmiss.
  - apply lookup_ge_None_2. lia.
  - rewrite HU. unfold deref.
    destruct (lookup_lt_is_Some_2 (depsets w') (length (depsets w)))
      as [U ->]; [lia|done].
  - rewrite HM. unfold deref.
    destruct (lookup_lt_is_Some_2 (depsets w')
                (Datatypes.S (length (depsets w)))) as [M ->]; [lia|done].
  - apply list_eq. intros p.
    destruct (decide (p < length (depsets w))) as [Hp|Hp].
    + rewrite lookup_take_lt by done. rewrite Hoth by lia.
      by rewrite lookup_app_l.
    + rewrite lookup_take_ge by lia. symmetry. apply lookup_ge_None_2. lia.
Qed.

(** The function map of a template without entries of the caller holds
    the file helper alone when no other helper is given, and every call
    follows the contract. *)
Lemma file_only_calls (t : Template) (r : nat) (w : World) (p : tprog)
    (w1 : World) :
  funcMapMerge t = ∅ →
  calls_satisfy
    (follows_contract r (length (depsets w)) (Datatypes.S (length (depsets w))))
    (Execute_funcs unix_no_symlinks no_other_helpers t r w) p w1.
Proof.
  intros Hmerge. apply calls_satisfy_all.
  apply (funcMap_follows_contract unix_no_symlinks no_other_helpers
           (Execute_input t r (length (depsets w))
              (Datatypes.S (length (depsets w))))).
  - intros name f args. simpl. by rewrite Hmerge, fmap_empty, lookup_empty.
  - intros name f args. unfold no_other_helpers. by rewrite lookup_empty.
Qed.

Lemma Execute_used_and_missing_witness :
  let q := DepFile {| path := "/path/to/file" |} in
  let t := template_of (file_action "/path/to/file") "" ∅ in
  let run := Execute unix_no_symlinks no_other_helpers
               (parse_to (file_call "/path/to/file")) no_binder_effect t 0
               (world_of NewStore) in
  let res := {| Used := {| items := [q] |}; Missing := {| items := [q] |};
                Output := "" |} in
  run.2 = inl res
  ∧ (∃ touched, lookups run.1 = map (pair 0) touched
                ∧ ∀ id, id ∈ ids (Used res) ↔ id ∈ touched)
  ∧ ids (Missing res) ⊆ ids (Used res)
  ∧ items (Missing res) = filter (absent_from NewStore) (items (Used res)).
Proof.
  intros q t run res.
  assert (run.2 = inl res) as Hrun by (vm_compute; reflexivity).
  destruct (Execute_used_and_missing unix_no_symlinks no_other_helpers
              (parse_to (file_call "/path/to/file")) no_binder_effect t 0
              (world_of NewStore) NewStore res)
    as (Htouched & Hsub & _ & Hfilter & _).
  - reflexivity.
  - apply Forall_nil_2.
  - intros tmpl _. by apply file_only_calls.
  - exact Hrun.
  - split_and!; [exact Hrun|exact Htouched|exact Hsub|exact Hfilter].
Defined.

(** The claim C2 as worded fails on two templates.  In the first the
    caller supplied a dep-binding helper whose closure adds to [missing]
    only: [Execute] returns without error, [missing] holds an id and [used]
    holds none.  In the second the body of the binder adds to [used] while
    it is bound and the template calls nothing: [used] holds an id that no
    helper touched during the execution. *)
Lemma Execute_missing_not_used :
  let t1 := template_of "{{ hosts }}" ""
              {["hosts" := DepBinding missing_only_binder]} in
  let run1 := Execute unix_no_symlinks no_other_helpers (parse_to hosts_call)
                no_binder_effect t1 0 (world_of NewStore) in
  let res1 := {| Used := NewDepSet;
                 Missing := {| items := [DepOther "hosts"] |};
                 Output := "" |} in
  let t2 := template_of "" "" {["hosts" := DepBinding eager_binder]} in
  let run2 := Execute unix_no_symlinks no_other_helpers (parse_to TEnd)
                eager_effect t2 0 (world_of NewStore) in
  let res2 := {| Used := {| items := [DepOther "hosts"] |};
                 Missing := NewDepSet;
                 Output := "" |} in
  (run1.2 = inl res1
   ∧ ids (Missing res1) = ["hosts"]
   ∧ ids (Used res1) = []
   ∧ lookups run1.1 = [])
  ∧ (run2.2 = inl res2
     ∧ ids (Used res2) = ["hosts"]
     ∧ lookups run2.1 = []).
Proof. vm_compute. by split_and!. Qed.

(** ** Executions and the stores *)

Lemma run_h_reads_only (c : hcomp) (w : World) :
  reads_only c → stores (run_h c w).1 = stores w.
Proof.
  intros Hc. revert w.
  induction Hc as [v err|msg|r key k _ IH|p d k _ IH]; intros w; simpl.
  - done.
  - done.
  - destruct (stores w !! r) as [s|]; [|done].
    destruct (Recall s key) as [v ok]. by rewrite IH.
  - destruct (depsets w !! p) as [s|]; [|done]. by rewrite IH.
Qed.

(** A body that follows the helper contract reaches the store through
    [Recall] alone. *)
Lemma follows_contract_reads_only (r used missing : nat) (c : hcomp) :
  follows_contract r used missing c → reads_only c.
Proof.
  induction 1 as [v err|msg|d k k' _ IHhit Hmiss _ IHmiss].
  - apply ro_return.
  - apply ro_panic.
  - apply ro_add, ro_recall. intros v [|].
    + apply IHhit.
    + rewrite Hmiss. apply ro_add, IHmiss.
Qed.

Lemma exec_reads_only fm (p : tprog) (buf : string) (w : World) :
  calls_satisfy reads_only fm p w → stores (exec fm p buf w).1 = stores w.
Proof.
  revert buf w.
  induction p as [|s k IH|name args k IH|e]; intros buf w Hcalls; simpl.
  - done.
  - by apply IH.
  - simpl in Hcalls.
    destruct (fm !! name) as [[f|f]|] eqn:Hname; [|done..].
    destruct Hcalls as [Hf Hrest].
    pose proof (run_h_reads_only (f args) w Hf) as Hrun.
    destruct (run_h (f args) w) as [w' [v [err|]|msg]]; simpl in *; [done| |done].
    rewrite <- Hrun. by apply IH.
  - done.
Qed.

Lemma bind_all_reads_only binder_effect (calls : list binding_call)
    (w : World) :
  binders_satisfy reads_only binder_effect calls →
  stores (bind_all binder_effect calls w) = stores w.
Proof.
  intros Hcalls. revert w.
  induction Hcalls as [|c calls (body & Hbody & Hrun) _ IH]; intros w.
  - done.
  - change (stores (bind_all binder_effect calls (binder_effect c w))
            = stores w).
    rewrite IH, Hrun. by apply run_h_reads_only.
Qed.

(** C9, as the code has it: [Execute] leaves every store as it found it,
    the one behind its recaller among them, when every body that it runs
    reaches the stores through [Recall] alone: the body of each caller's
    binder while [funcMap] binds it, and the body of each function that the
    template calls.  The built-in file helper is such a body; a function of
    the caller that holds the store is not bound to be. *)
Theorem Execute_leaves_store_when_reading fp other_helpers Parse binder_effect
    (t : Template) (r : nat) (w : World) :
  binders_satisfy reads_only binder_effect
    (Execute_bindings fp other_helpers t r w) →
  (∀ tmpl,
     Parse (ID t) (leftDelim t) (rightDelim t) (errMissingKey t)
           (dom (Execute_funcs fp other_helpers t r w)) (contents t)
     = inl tmpl →
     calls_satisfy reads_only (Execute_funcs fp other_helpers t r w) tmpl
       (Execute_start fp other_helpers binder_effect t r w)) →
  stores (Execute fp other_helpers Parse binder_effect t r w).1 = stores w.
Proof.
  intros Hbind Hcalls.
  assert (stores (Execute_start fp other_helpers binder_effect t r w)
          = stores w) as Hstart.
  { unfold Execute_start. rewrite bind_all_reads_only by done.
    by destruct (alloc_twice w) as (_ & -> & _). }
  rewrite Execute_unfold.
  destruct (Parse _ _ _ _ _ _) as [tmpl|err] eqn:Hparse; [|done].
  pose proof (exec_reads_only _ tmpl "" _ (Hcalls _ eq_refl)) as Hexec.
  destruct (exec _ tmpl "" _) as [w' [b|err]]; simpl in *; congruence.
Qed.

Lemma Execute_leaves_store_when_reading_witness :
  let t := template_of (file_action "/path/to/file") "" ∅ in
  let q := DepFile {| path := "/path/to/file" |} in
  let S := Save NewStore (ider_String q) (Str "content") in
  let run := Execute unix_no_symlinks no_other_helpers
               (parse_to (file_call "/path/to/file")) no_binder_effect t 0
               (world_of S) in
  run.2 = inl {| Used := {| items := [q] |}; Missing := NewDepSet;
                 Output := "content" |}
  ∧ stores run.1 = [S].
Proof.
  intros t q S run. split; [vm_compute; reflexivity|].
  apply (Execute_leaves_store_when_reading unix_no_symlinks no_other_helpers
           (parse_to (file_call "/path/to/file")) no_binder_effect t 0
           (world_of S)).
  - apply Forall_nil_2.
  - intros tmpl _.
    eapply calls_satisfy_impl; [apply follows_contract_reads_only|].
    by apply file_only_calls.
Defined.

(** The claim C9 as worded fails on a template that calls a function of
    the caller which holds the store: [Execute] returns without error and
    the store behind its recaller, empty before, holds a value under
    ["poked"] afterwards. *)
Lemma Execute_writes_store :
  let t := template_of "{{ poke }}" "" {["poke" := poke]} in
  let run := Execute unix_no_symlinks no_other_helpers (parse_to poke_call)
               no_binder_effect t 0 (world_of NewStore) in
  run.2 = inl {| Used := NewDepSet; Missing := NewDepSet; Output := "" |}
  ∧ stores (world_of NewStore) = [NewStore]
  ∧ stores run.1 = [Save NewStore "poked" (Str "x")]
  ∧ Recall NewStore "poked" = (Nil, false)
  ∧ (∃ S, stores run.1 !! 0 = Some S ∧ Recall S "poked" = (Str "x", true)).
Proof.
  split_and!; [by vm_compute..|].
  eexists. split; by vm_compute.
Qed.

(** ** The scenarios of the repository's tests *)

(** [TestFileSandbox]: paths without a sandbox, paths inside the sandbox,
    and a path that climbs out of it. *)
Example sandbox_test_cases :
  pathInSandbox unix_no_symlinks "" "/path/to/file" = None
  ∧ pathInSandbox unix_no_symlinks "" "./path/to/file" = None
  ∧ pathInSandbox unix_no_symlinks "/sandbox" "/sandbox/path/to/file" = None
  ∧ pathInSandbox unix_no_symlinks "/sandbox" "/sandbox/path/to/../to/file"
    = None
  ∧ pathInSandbox unix_no_symlinks "/testdata/sandbox"
      "/testdata/sandbox/path/../../../template_funcs_test.go"
    = Some (outside_of_sandbox
              "/testdata/sandbox/path/../../../template_funcs_test.go").
Proof. vm_compute. by split_and!. Qed.

(** [TestFileExecute]: the store holds ["content"] under the id of the file
    query; the template prints it and nothing is missing.  On an empty
    store the output is empty and the query is both used and missing. *)
Example file_template_hit_and_miss :
  let t := template_of (file_action "/path/to/file") "" ∅ in
  let parse := parse_to (file_call "/path/to/file") in
  let q := DepFile {| path := "/path/to/file" |} in
  let hit := world_of (Save NewStore (ider_String q) (Str "content")) in
  (Execute unix_no_symlinks no_other_helpers parse no_binder_effect t 0 hit).2
  = inl {| Used := {| items := [q] |}; Missing := NewDepSet;
           Output := "content" |}
  ∧ (Execute unix_no_symlinks no_other_helpers parse no_binder_effect t 0
       (world_of NewStore)).2
    = inl {| Used := {| items := [q] |}; Missing := {| items := [q] |};
             Output := "" |}.
Proof. vm_compute. by split_and!. Qed.

(** A history in which an id is saved, deleted and saved again, and another
    is saved and then lost to [Reset]. *)
Example store_history :
  let ops := [OpSave "a" (Str "1"); OpDelete "a"; OpSave "b" Nil; OpReset;
              OpSave "a" Nil] in
  Recall (run_ops ops NewStore) "a" = (Nil, true)
  ∧ Recall (run_ops ops NewStore) "b" = (Nil, false).
Proof. vm_compute. by split_and!. Qed.

(** The caller's helper [hosts_binder] keeps to the contract, so the
    statement about the used and missing sets covers templates that call
    it. *)
Example hosts_binder_follows_contract (r used missing : nat) :
  helpers_follow_contract r used missing
    {["hosts" := hosts_binder r used missing]}.
Proof.
  intros name f args [<- [= <-]]%lookup_singleton_Some.
  apply (fc_dependency r used missing (DepOther "hosts") _
           (λ _, HReturn Nil None)).
  - intros v. apply fc_return.
  - done.
  - intros v. apply fc_return.
Qed.

(* ===================================================================== *)
(** * Further properties *)

(** ** The store, operation by operation *)

Lemma Store_eq (s1 s2 : Store) :
  data s1 = data s2 → receivedData s1 = receivedData s2 → s1 = s2.
Proof. destruct s1, s2. simpl. by intros -> ->. Qed.

Section store_algebra.
Context `{IDer D}.
Implicit Types (s : Store) (d : D) (v : any).

Lemma last_value_snoc (id : string) (ops : list (StoreOp D)) (o : StoreOp D) :
  last_value id (ops ++ [o]) = step_value id (last_value id ops) o.
Proof. unfold last_value. by rewrite fold_left_app. Qed.

(** Both maps of a store built by a history follow the cell of each key. *)
Lemma run_ops_cells (ops : list (StoreOp D)) (k : string) :
  data (run_ops ops NewStore) !! k = last_value k ops
  ∧ (k ∈ receivedData (run_ops ops NewStore) ↔ is_Some (last_value k ops)).
Proof.
  induction ops as [|o ops [IHdata IHrec]] using rev_ind.
  - split; [done|]. split; [set_solver|]. by intros [? ?].
  - rewrite run_ops_snoc, last_value_snoc.
    destruct o as [d v|d|]; simpl apply_op; simpl step_value.
    + destruct (decide (ider_String d = k)) as [<-|Hne]; split.
      * simpl. by rewrite lookup_insert_eq.
      * rewrite received_Save. split; [by eexists|by left].
      * simpl. by rewrite lookup_insert_ne.
      * rewrite received_Save, IHrec. naive_solver.
    + destruct (decide (ider_String d = k)) as [<-|Hne]; split.
      * simpl. by rewrite lookup_delete_eq.
      * rewrite received_Delete. split; [naive_solver|by intros [? ?]].
      * simpl. by rewrite lookup_delete_ne.
      * rewrite received_Delete, IHrec. naive_solver.
    + rewrite Reset_empty. split; [done|].
      split; [set_solver|by intros [? ?]].
Qed.

(** X1: [Reset] leaves a store equal to a new one, whatever it held: the
    two loops delete every key of both maps. *)
Theorem Reset_is_NewStore s :
  Reset s = NewStore
  ∧ data (Reset s) = ∅ ∧ receivedData (Reset s) = ∅
  ∧ ∀ v d, Reset (Save s d v) = NewStore.
Proof.
  split_and!.
  - apply Reset_empty.
  - apply clear_data_empty.
  - apply clear_received_empty.
  - intros v d. apply Reset_empty.
Qed.

(** X2: in every store built from [NewStore] by [Save], [Delete] and
    [Reset], the keys of [data] are exactly the keys of [receivedData]; each
    of the three operations keeps that, from any store that has it. *)
Theorem data_and_receivedData_agree (ops : list (StoreOp D)) s d v :
  keys_agree (run_ops ops NewStore)
  ∧ (keys_agree s → keys_agree (Save s d v))
  ∧ (keys_agree s → keys_agree (Delete s d))
  ∧ keys_agree (Reset s).
Proof.
  unfold keys_agree. split_and!.
  - apply set_eq. intros k. rewrite elem_of_dom.
    destruct (run_ops_cells ops k) as [-> ->]. done.
  - intros Hs. simpl. rewrite dom_insert_L, Hs. done.
  - intros Hs. simpl. rewrite dom_delete_L, Hs. done.
  - rewrite Reset_empty. simpl. by rewrite dom_empty_L.
Qed.

(** X3: after any history, [Recall] gives the value of the latest [Save] of
    the id that no [Delete] of the id and no [Reset] has followed, and
    [(nil, false)] when there is none. *)
Theorem Recall_gives_latest_value (ops : list (StoreOp D)) d :
  Recall (run_ops ops NewStore) d
  = match last_value (ider_String d) ops with
    | Some v => (v, true)
    | None => (Nil, false)
    end.
Proof.
  destruct (run_ops_cells ops (ider_String d)) as [Hdata Hrec].
  unfold Recall. destruct (last_value (ider_String d) ops) as [v|].
  - rewrite decide_True by (apply Hrec; by eexists). by rewrite Hdata.
  - rewrite decide_False; [done|]. intros [? ?]%Hrec. done.
Qed.

(** X5: on one id the later operation wins: a [Save] or [Delete] makes an
    earlier [Save] or [Delete] of the same id without effect. *)
Theorem later_operation_wins s d v1 v2 :
  Save (Save s d v1) d v2 = Save s d v2
  ∧ Save (Delete s d) d v2 = Save s d v2
  ∧ Delete (Save s d v1) d = Delete s d
  ∧ Delete (Delete s d) d = Delete s d.
Proof.
  split_and!; apply Store_eq; simpl.
  - apply insert_insert_eq.
  - set_solver.
  - apply insert_delete_eq.
  - apply set_eq. intros k. destruct (decide (k = ider_String d)); set_solver.
  - apply delete_insert_eq.
  - set_solver.
  - apply delete_delete_eq.
  - set_solver.
Qed.
End store_algebra.

(** X4: saving or deleting one id changes nothing for another id: neither
    what [Recall] returns for it nor its received flag. *)
Theorem other_ids_untouched `{IDer D1, IDer D2}
    (s : Store) (d : D1) (d' : D2) (v : any) :
  ider_String d ≠ ider_String d' →
  Recall (Save s d v) d' = Recall s d'
  ∧ Recall (Delete s d) d' = Recall s d'.
Proof.
  intros Hne. unfold Recall. simpl. split.
  - rewrite lookup_insert_ne by done.
    destruct (decide (ider_String d' ∈ receivedData s)) as [Hin|Hout].
    + by rewrite decide_True by set_solver.
    + by rewrite decide_False by set_solver.
  - rewrite lookup_delete_ne by done.
    destruct (decide (ider_String d' ∈ receivedData s)) as [Hin|Hout].
    + by rewrite decide_True by set_solver.
    + by rewrite decide_False by set_solver.
Qed.

Lemma other_ids_untouched_witness :
  let s := Save NewStore "file(/etc/hosts)" (Str "127.0.0.1 localhost") in
  let q := DepFile {| path := "/etc/passwd" |} in
  Recall (Save s q (Str "root")) "file(/etc/hosts)"
  = (Str "127.0.0.1 localhost", true)
  ∧ Recall (Delete s q) "file(/etc/hosts)"
    = (Str "127.0.0.1 localhost", true).
Proof.
  intros s q.
  destruct (other_ids_untouched (D1:=Dependency) (D2:=string) s q
              "file(/etc/hosts)" (Str "root")) as [Hsave Hdelete].
  - vm_compute. discriminate.
  - rewrite Hsave, Hdelete. unfold s. by rewrite Recall_Save.
Defined.

(** X6: operations on two different ids commute: the store does not
    depend on the order in which two dependencies were saved or deleted. *)
Theorem distinct_ids_commute `{IDer D1, IDer D2}
    (s : Store) (d1 : D1) (d2 : D2) (v1 v2 : any) :
  ider_String d1 ≠ ider_String d2 →
  Save (Save s d1 v1) d2 v2 = Save (Save s d2 v2) d1 v1
  ∧ Delete (Save s d1 v1) d2 = Save (Delete s d2) d1 v1
  ∧ Delete (Delete s d1) d2 = Delete (Delete s d2) d1.
Proof.
  intros Hne. split_and!; apply Store_eq; simpl.
  - by apply insert_insert_ne.
  - set_solver.
  - by apply delete_insert_ne.
  - set_solver.
  - apply delete_delete.
  - set_solver.
Qed.

Lemma distinct_ids_commute_witness :
  let a := DepFile {| path := "/a" |} in
  let b := "file(/b)" in
  Save (Save NewStore a (Str "1")) b Nil = Save (Save NewStore b Nil) a (Str "1")
  ∧ Delete (Save NewStore a (Str "1")) b = Save (Delete NewStore b) a (Str "1")
  ∧ Delete (Delete NewStore a) b = Delete (Delete NewStore b) a.
Proof.
  intros a b.
  apply (distinct_ids_commute (D1:=Dependency) (D2:=string)).
  vm_compute. discriminate.
Defined.

(** ** The identity of file queries *)

Lemma list_ascii_of_append (a b : string) :
  list_ascii_of_string (a +:+ b)
  = list_ascii_of_string a ++ list_ascii_of_string b.
Proof. induction a as [|c a IH]; simpl; [done|]. by rewrite IH. Qed.

Lemma list_ascii_inj (a b : string) :
  list_ascii_of_string a = list_ascii_of_string b → a = b.
Proof.
  intros Hab. rewrite <- (string_of_list_ascii_of_string a).
  rewrite <- (string_of_list_ascii_of_string b). by rewrite Hab.
Qed.

Lemma append_inj_r (a b c : string) : a +:+ c = b +:+ c → a = b.
Proof.
  intros Heq. apply list_ascii_inj.
  apply (f_equal list_ascii_of_string) in Heq.
  rewrite !list_ascii_of_append in Heq. by apply app_inv_tail in Heq.
Qed.

Lemma FileQuery_String_inj (q1 q2 : FileQuery) :
  FileQuery_String q1 = FileQuery_String q2 → q1 = q2.
Proof.
  destruct q1 as [p1], q2 as [p2]. unfold FileQuery_String. simpl.
  intros Heq%String.app_inj%append_inj_r. by rewrite Heq.
Qed.

Lemma strip_prefix_Some (p s rest : list ascii) :
  strip_prefix p s = Some rest ↔ s = p ++ rest.
Proof.
  revert s. induction p as [|a p IH]; intros s; simpl.
  - split; [by intros [= ->]|by intros ->].
  - destruct s as [|b s]; [by split|].
    destruct (Ascii.eqb a b) eqn:Hab.
    + apply Ascii.eqb_eq in Hab as ->. rewrite IH. split; [by intros ->|].
      by intros [= ->].
    + split; [done|]. intros [= -> _]. by rewrite Ascii.eqb_refl in Hab.
Qed.

Lemma strip_wide_None (table : list (list ascii)) (s : list ascii) :
  strip_wide table s = None ↔ Forall (λ enc, strip_prefix enc s = None) table.
Proof.
  induction table as [|enc table IH]; simpl.
  - split; [constructor|done].
  - rewrite Forall_cons. destruct (strip_prefix enc s) as [rest|].
    + split; [done|]. by intros [? _].
    + rewrite IH. tauto.
Qed.

Lemma strip_wide_Some (table : list (list ascii)) (s rest : list ascii) :
  strip_wide table s = Some rest →
  ∃ enc, enc ∈ table ∧ s = enc ++ rest.
Proof.
  induction table as [|enc table IH]; simpl; [done|].
  destruct (strip_prefix enc s) as [rest'|] eqn:Henc.
  - intros [= ->]. exists enc. split; [apply list_elem_of_here|].
    by apply strip_prefix_Some.
  - intros (enc' & Hin & Heq)%IH. exists enc'. split; [|done].
    by apply list_elem_of_further.
Qed.

Lemma strip_space_unfold (table : list (list ascii)) (c : ascii)
    (s : list ascii) :
  strip_space table (c :: s)
  = if is_ascii_space c then Some s else strip_wide table (c :: s).
Proof. reflexivity. Qed.

Section trimming.
Variable table : list (list ascii).
Hypothesis Htable : Forall (λ enc, enc ≠ []) table.

Lemma strip_space_Some (s rest : list ascii) :
  strip_space table s = Some rest →
  ∃ pre, pre ≠ [] ∧ s = pre ++ rest.
Proof.
  destruct s as [|c s]; [done|]. rewrite strip_space_unfold.
  destruct (is_ascii_space c).
  - intros [= ->]. by exists [c].
  - intros (enc & Hin & Heq)%strip_wide_Some. exists enc. split; [|done].
    rewrite Forall_forall in Htable. by apply Htable.
Qed.

Lemma trim_left_suffix (fuel : nat) (s : list ascii) :
  ∃ pre, s = pre ++ trim_left fuel table s.
Proof.
  revert s. induction fuel as [|fuel IH]; intros s; simpl.
  - by exists [].
  - destruct (strip_space table s) as [rest|] eqn:Hs; [|by exists []].
    apply strip_space_Some in Hs as (pre & _ & ->).
    destruct (IH rest) as [pre' Hrest]. exists (pre ++ pre').
    by rewrite <- app_assoc, <- Hrest.
Qed.

Lemma trim_left_done (fuel : nat) (s : list ascii) :
  (length s ≤ fuel)%nat → strip_space table (trim_left fuel table s) = None.
Proof.
  revert s. induction fuel as [|fuel IH]; intros s Hlen; simpl.
  - by destruct s; [|simpl in Hlen; lia].
  - destruct (strip_space table s) as [rest|] eqn:Hs; [|done].
    apply IH. apply strip_space_Some in Hs as (pre & Hpre & ->).
    rewrite length_app in Hlen. destruct pre; [done|]. simpl in Hlen. lia.
Qed.

Lemma trim_left_id (fuel : nat) (s : list ascii) :
  strip_space table s = None → trim_left fuel table s = s.
Proof. intros Hs. destruct fuel; simpl; [done|]. by rewrite Hs. Qed.

Lemma strip_space_prefix (r tail : list ascii) :
  strip_space table (r ++ tail) = None → strip_space table r = None.
Proof.
  destruct r as [|c r]; [done|]. simpl app. rewrite !strip_space_unfold.
  destruct (is_ascii_space c); [done|].
  rewrite !strip_wide_None. intros Hall.
  eapply Forall_impl; [exact Hall|]. intros enc Hnone. simpl in Hnone.
  destruct (strip_prefix enc (c :: r)) as [rest|] eqn:Hrest; [|done].
  apply strip_prefix_Some in Hrest.
  assert (strip_prefix enc (c :: r ++ tail) = Some (rest ++ tail)) as Hsome.
  { apply strip_prefix_Some. rewrite app_assoc, <- Hrest. done. }
  by rewrite Hsome in Hnone.
Qed.
End trimming.

Lemma wide_spaces_nonempty : Forall (λ enc : list ascii, enc ≠ []) wide_spaces.
Proof. vm_compute. repeat (constructor; [discriminate|]). constructor. Qed.

Lemma wide_spaces_rev_nonempty :
  Forall (λ enc : list ascii, enc ≠ []) (map (@rev ascii) wide_spaces).
Proof. vm_compute. repeat (constructor; [discriminate|]). constructor. Qed.

(** [TrimSpace] leaves nothing that it would trim. *)
Lemma TrimSpace_idempotent (s : string) : TrimSpace (TrimSpace s) = TrimSpace s.
Proof.
  unfold TrimSpace.
  set (b := list_ascii_of_string s).
  set (l := trim_left (length b) wide_spaces b).
  set (r := trim_left (length l) (map (@rev ascii) wide_spaces) (rev l)).
  rewrite list_ascii_of_string_of_list_ascii.
  assert (strip_space wide_spaces l = None) as Hl
    by (apply trim_left_done; [apply wide_spaces_nonempty|done]).
  assert (strip_space (map (@rev ascii) wide_spaces) r = None) as Hr.
  { apply trim_left_done; [apply wide_spaces_rev_nonempty|].
    by rewrite List.length_rev. }
  destruct (trim_left_suffix _ wide_spaces_rev_nonempty (length l) (rev l))
    as [pre Hpre]. fold r in Hpre.
  assert (l = rev r ++ rev pre) as Hlr.
  { rewrite <- rev_app_distr, <- Hpre. by rewrite rev_involutive. }
  assert (strip_space wide_spaces (rev r) = None) as Hrr.
  { apply (strip_space_prefix _ _ (rev pre)). by rewrite <- Hlr. }
  rewrite (trim_left_id _ _ _ Hrr). rewrite rev_involutive.
  by rewrite (trim_left_id _ _ _ Hr).
Qed.

(** What [TrimSpace] returns begins with no white-space rune and ends with
    none. *)
Lemma TrimSpace_trimmed (s : string) :
  let res := list_ascii_of_string (TrimSpace s) in
  strip_space wide_spaces res = None
  ∧ strip_space (map (@rev ascii) wide_spaces) (rev res) = None.
Proof.
  unfold TrimSpace.
  set (b := list_ascii_of_string s).
  set (l := trim_left (length b) wide_spaces b).
  set (r := trim_left (length l) (map (@rev ascii) wide_spaces) (rev l)).
  cbv zeta. rewrite list_ascii_of_string_of_list_ascii, rev_involutive.
  assert (strip_space wide_spaces l = None) as Hl
    by (apply trim_left_done; [apply wide_spaces_nonempty|done]).
  assert (strip_space (map (@rev ascii) wide_spaces) r = None) as Hr.
  { apply trim_left_done; [apply wide_spaces_rev_nonempty|].
    by rewrite List.length_rev. }
  split; [|done].
  destruct (trim_left_suffix _ wide_spaces_rev_nonempty (length l) (rev l))
    as [pre Hpre]. fold r in Hpre.
  apply (strip_space_prefix _ _ (rev pre)).
  rewrite <- rev_app_distr, <- Hpre. by rewrite rev_involutive.
Qed.

Lemma strip_space_head (table : list (list ascii)) (c : ascii)
    (s : list ascii) :
  strip_space table (c :: s) = None → is_ascii_space c = false.
Proof. rewrite strip_space_unfold. by destruct (is_ascii_space c). Qed.

(** X7: the path of a query built by [NewFileQuery] is the argument without
    its surrounding white space; it is never empty, it neither begins nor
    ends with an ASCII white-space character, and building a query from it
    gives the same query again. *)
Theorem NewFileQuery_normal_form (s : string) (q : FileQuery) :
  NewFileQuery s = inl q →
  path q = TrimSpace s
  ∧ path q ≠ ""
  ∧ NewFileQuery (path q) = inl q
  ∧ (∀ c rest, list_ascii_of_string (path q) = c :: rest →
               is_ascii_space c = false)
  ∧ (∀ c rest, list_ascii_of_string (path q) = rest ++ [c] →
               is_ascii_space c = false).
Proof.
  unfold NewFileQuery at 1. case_decide as Hempty; [done|].
  intros [= <-]. simpl.
  destruct (TrimSpace_trimmed s) as [Hfront Hback].
  split_and!; [done|done| | |].
  - rewrite NewFileQuery_trimmed by (by rewrite TrimSpace_idempotent).
    by rewrite TrimSpace_idempotent.
  - intros c rest Hres. rewrite Hres in Hfront.
    by apply strip_space_head in Hfront.
  - intros c rest Hres. rewrite Hres, rev_unit in Hback.
    by apply strip_space_head in Hback.
Qed.

Lemma NewFileQuery_normal_form_witness :
  let q := {| path := "/etc/hosts" |} in
  NewFileQuery "  /etc/hosts " = inl q
  ∧ NewFileQuery (path q) = inl q.
Proof.
  intros q.
  assert (NewFileQuery "  /etc/hosts " = inl q) as Hq by reflexivity.
  destruct (NewFileQuery_normal_form "  /etc/hosts " q Hq)
    as (_ & _ & Hagain & _).
  by split.
Defined.

(** X8: two arguments of the file helper name the same dependency exactly
    when they are equal up to surrounding white space: the id
    [file(<path>)] determines the trimmed path. *)
Theorem file_dependency_identity (s1 s2 : string) (q1 q2 : FileQuery) :
  NewFileQuery s1 = inl q1 →
  NewFileQuery s2 = inl q2 →
  (FileQuery_String q1 = FileQuery_String q2 ↔ TrimSpace s1 = TrimSpace s2)
  ∧ (ider_String (DepFile q1) = ider_String (DepFile q2) ↔ q1 = q2).
Proof.
  unfold NewFileQuery. do 2 case_decide; try done.
  intros [= <-] [= <-]. split; split.
  - by intros [= ?]%FileQuery_String_inj.
  - by intros ->.
  - by intros ?%FileQuery_String_inj.
  - by intros ->.
Qed.

Lemma file_dependency_identity_witness :
  let q1 := {| path := "/etc/hosts" |} in
  let q2 := {| path := "/etc/hosts" |} in
  NewFileQuery " /etc/hosts" = inl q1
  ∧ NewFileQuery "/etc/hosts  " = inl q2
  ∧ FileQuery_String q1 = FileQuery_String q2.
Proof.
  intros q1 q2.
  destruct (file_dependency_identity " /etc/hosts" "/etc/hosts  " q1 q2)
    as [[_ Hsame] _]; [reflexivity..|].
  split_and!; [reflexivity..|]. apply Hsame. reflexivity.
Defined.

(** ** Failures of the sandbox check *)

(** X9: with a sandbox root set, a path whose symbolic links cannot be
    resolved (a missing file, say), or that [Rel] cannot relate to the root,
    makes the file helper return that very error and register nothing,
    although without a sandbox the same path would pass unchecked. *)
Theorem sandbox_failure_is_returned fp (r used missing : nat)
    (sandbox path : string) (err : error) (w : World) :
  sandbox ≠ "" →
  path ≠ "" →
  (EvalSymlinks fp path = inr err
   ∨ ∃ resolved, EvalSymlinks fp path = inl resolved
                 ∧ Rel fp sandbox resolved = inr err) →
  pathInSandbox fp sandbox path = Some err
  ∧ run_h (fileFunc fp r used missing sandbox path) w
    = (w, Returned (Str "") (Some err))
  ∧ pathInSandbox fp "" path = None.
Proof.
  intros Hsandbox Hpath Hfail.
  assert (pathInSandbox fp sandbox path = Some err) as Hcheck.
  { unfold pathInSandbox. rewrite decide_True by done.
    destruct Hfail as [->|(resolved & -> & ->)]; done. }
  split_and!.
  - exact Hcheck.
  - by apply fileFunc_refused.
  - apply pathInSandbox_no_sandbox.
Qed.

Lemma sandbox_failure_is_returned_witness :
  let err := NewError "lstat /s: no such file or directory" in
  let w := helper_world NewStore in
  pathInSandbox empty_tree "/s" "/s/absent" = Some err
  ∧ run_h (fileFunc empty_tree 0 0 1 "/s" "/s/absent") w
    = (w, Returned (Str "") (Some err))
  ∧ pathInSandbox empty_tree "" "/s/absent" = None.
Proof.
  intros err w.
  apply (sandbox_failure_is_returned empty_tree 0 0 1 "/s" "/s/absent" err w).
  - done.
  - done.
  - left. reflexivity.
Defined.

(** ** The function map as a whole *)

(** X10: the function map is the caller's map, every entry installed, laid
    over the built-in table: it does not depend on the order in which the
    loop visits the caller's entries, it defines exactly the built-in names
    and the caller's names, [file] among them, and a caller's entry takes
    the place of the built-in of the same name. *)
Theorem funcMap_is_override fp other_helpers (i : funcMapInput) :
  funcMap fp other_helpers i
  = (installed i <$> i_funcMapMerge i) ∪ builtin fp other_helpers i
  ∧ dom (funcMap fp other_helpers i)
    = dom (i_funcMapMerge i) ∪ ({["file"]} ∪ dom (other_helpers i))
  ∧ "file" ∈ dom (funcMap fp other_helpers i)
  ∧ ∀ v, i_funcMapMerge i !! "file" = Some v →
         funcMap fp other_helpers i !! "file" = Some (installed i v).
Proof.
  assert (funcMap fp other_helpers i
          = (installed i <$> i_funcMapMerge i) ∪ builtin fp other_helpers i)
    as Hmap.
  { apply map_eq. intros k. rewrite funcMap_lookup, lookup_union, lookup_fmap.
    destruct (i_funcMapMerge i !! k) as [v|]; simpl.
    - by destruct (builtin fp other_helpers i !! k).
    - by destruct (builtin fp other_helpers i !! k). }
  assert (dom (funcMap fp other_helpers i)
          = dom (i_funcMapMerge i) ∪ ({["file"]} ∪ dom (other_helpers i)))
    as Hdom.
  { rewrite Hmap, dom_union_L, dom_fmap_L. unfold builtin.
    by rewrite dom_insert_L. }
  split_and!.
  - exact Hmap.
  - exact Hdom.
  - rewrite Hdom. set_solver.
  - intros v Hv. by rewrite funcMap_lookup, Hv.
Qed.

(** ** The shape of template identifiers *)

Lemma le_bytes_length (n : nat) (x : Z) : length (le_bytes n x) = n.
Proof. revert x. induction n as [|n IH]; intros x; simpl; [done|]. by rewrite IH. Qed.

Lemma le_bytes_range (n : nat) (x : Z) :
  Forall (λ b, (0 ≤ b < 256)%Z) (le_bytes n x).
Proof.
  revert x. induction n as [|n IH]; intros x; simpl; constructor; [|apply IH].
  change 255%Z with (Z.ones 8). rewrite Z.land_ones by lia.
  apply Z.mod_pos_bound. lia.
Qed.

Lemma md5_Sum_shape (msg : list Z) :
  length (md5_Sum msg) = 16 ∧ Forall (λ b, (0 ≤ b < 256)%Z) (md5_Sum msg).
Proof.
  unfold md5_Sum.
  destruct (fold_left md5_block _ md5_init) as [[[a b] c] d].
  split.
  - by rewrite !length_app, !le_bytes_length.
  - rewrite !Forall_app. split_and!; apply le_bytes_range.
Qed.

Lemma hex_digit_lower (n : Z) :
  (0 ≤ n < 16)%Z → is_lower_hex (hex_digit n) = true.
Proof.
  intros Hn.
  assert (∃ k : nat, (k < 16)%nat ∧ n = Z.of_nat k) as (k & Hk & ->)
    by (exists (Z.to_nat n); lia).
  do 16 (destruct k as [|k]; [reflexivity|]). lia.
Qed.

Lemma string_of_list_ascii_length (l : list ascii) :
  String.length (string_of_list_ascii l) = length l.
Proof. induction l as [|c l IH]; simpl; [done|]. by rewrite IH. Qed.

Lemma hex_EncodeToString_shape (bs : list Z) :
  Forall (λ b, (0 ≤ b < 256)%Z) bs →
  String.length (hex_EncodeToString bs) = 2 * length bs
  ∧ Forall (λ c, is_lower_hex c = true)
           (list_ascii_of_string (hex_EncodeToString bs)).
Proof.
  intros Hbs. unfold hex_EncodeToString.
  rewrite string_of_list_ascii_length, list_ascii_of_string_of_list_ascii.
  induction Hbs as [|b bs Hb Hbs [IHlen IHhex]]; simpl; [by split|].
  split; [lia|].
  repeat constructor; [| |exact IHhex].
  - apply hex_digit_lower. rewrite Z.shiftr_div_pow2 by lia.
    change (2 ^ 4)%Z with 16%Z. split.
    + apply Z.div_pos; lia.
    + apply Z.div_lt_upper_bound; lia.
  - apply hex_digit_lower. change 15%Z with (Z.ones 4).
    rewrite Z.land_ones by lia. apply Z.mod_pos_bound. lia.
Qed.

(** X11: the identifier of every template is a string of exactly 32
    characters, each a digit or a letter from [a] to [f], whatever the
    contents. *)
Theorem ID_is_32_hex_digits (i : TemplateInput) :
  String.length (ID (NewTemplate i)) = 32
  ∧ Forall (λ c, is_lower_hex c = true)
           (list_ascii_of_string (ID (NewTemplate i))).
Proof.
  unfold ID, NewTemplate. simpl.
  destruct (md5_Sum_shape (bytes (Contents i))) as [Hlen Hrange].
  destruct (hex_EncodeToString_shape _ Hrange) as [Hhexlen Hhex].
  split; [|exact Hhex]. rewrite Hhexlen, Hlen. done.
Qed.

(** ** The errors of Execute *)



(** ** Fetching a file *)

Lemma changed_same (last stat : FileInfo) :
  Size stat = Size last → ModTime stat = ModTime last →
  changed (Some last) stat = false.
Proof. intros Hs Hm. simpl. by rewrite Hs, Hm, !Z.eqb_refl. Qed.

Lemma watch_unchanged (last : FileInfo) (polls : list (FileInfo + error)) :
  Forall (same_as last) polls → watch (Some last) polls = None.
Proof.
  induction 1 as [|p polls (stat & -> & Hs & Hm) _ IH]; [done|].
  cbn [watch]. by rewrite changed_same.
Qed.

(** [watch] sends the first poll that fails or that shows a change. *)
Lemma watch_Some (lastStat : option FileInfo)
    (polls : list (FileInfo + error)) (r : watchResult) :
  watch lastStat polls = Some r →
  (∃ err, inr err ∈ polls ∧ r = {| wr_stat := None; wr_err := Some err |})
  ∨ (∃ stat, inl stat ∈ polls ∧ changed lastStat stat = true
             ∧ r = {| wr_stat := Some stat; wr_err := None |}).
Proof.
  induction polls as [|[stat|err] polls IH]; cbn [watch]; [done| |].
  - destruct (changed lastStat stat) eqn:Hch.
    + intros [= <-]. right. exists stat. split_and!; [left|done|done].
    + intros [(err & Hin & ->)|(stat' & Hin & Hch' & ->)]%IH.
      * left. exists err. split; [by right|done].
      * right. exists stat'. split_and!; [by right|done|done].
  - intros [= <-]. left. exists err. split; [left|done].
Qed.

(** X13: a query that has recorded the size and the modification time of
    the file does not return from [Fetch] as long as every poll shows that
    size and that time, whatever the file holds by then: a change of the
    contents that keeps both goes unseen. *)
Theorem Fetch_waits_for_a_change (d : FileQueryState) (last : FileInfo)
    (polls : list (FileInfo + error)) (readFile : string → string + error)
    (now : Z) :
  fq_stat d = Some last →
  Forall (same_as last) polls →
  Fetch d polls readFile now = None.
Proof.
  intros Hstat Hpolls. unfold Fetch. rewrite Hstat.
  by rewrite watch_unchanged.
Qed.

Lemma Fetch_waits_for_a_change_witness :
  let seen := {| Size := 10; ModTime := 1700000000 |} in
  let d := {| fq_query := {| path := "/etc/hosts" |}; fq_stat := Some seen |} in
  Fetch d [inl seen; inl seen; inl seen] (λ _, inl "rewritten!") 1700000060
  = None.
Proof.
  intros seen d.
  apply (Fetch_waits_for_a_change d seen).
  - reflexivity.
  - repeat constructor; by exists seen.
Defined.

(** X14: when [Fetch] returns without error, the value is the contents read
    from the path of the query; the metadata holds the current time as
    [LastIndex] and a zero [LastContact]; the query has recorded the stat
    of a poll that differs from the one it had in size or in modification
    time (any stat when it had none); and the next [Fetch] waits as long as
    the polls show that stat. *)
Theorem Fetch_success (d d' : FileQueryState) (res : FetchResult)
    (polls : list (FileInfo + error)) (readFile : string → string + error)
    (now : Z) :
  Fetch d polls readFile now = Some (d', res) →
  fr_err res = None →
  ∃ stat data,
    inl stat ∈ polls
    ∧ changed (fq_stat d) stat = true
    ∧ readFile (path (fq_query d)) = inl data
    ∧ d' = {| fq_query := fq_query d; fq_stat := Some stat |}
    ∧ res = {| fr_value := Str data;
               fr_meta := Some {| LastIndex := uint64 now; LastContact := 0 |};
               fr_err := None |}
    ∧ ∀ polls' readFile' now',
        Forall (same_as stat) polls' → Fetch d' polls' readFile' now' = None.
Proof.
  unfold Fetch. destruct (watch (fq_stat d) polls) as [r|] eqn:Hwatch; [|done].
  apply watch_Some in Hwatch
    as [(err & Hin & ->)|(stat & Hin & Hch & ->)]; simpl.
  - by intros [= <- <-].
  - destruct (readFile (path (fq_query d))) as [data|err] eqn:Hread.
    + intros [= <- <-] _. exists stat, data. split_and!; try done.
      intros polls' readFile' now' Hsame. simpl.
      by rewrite watch_unchanged.
    + by intros [= <- <-].
Qed.

Lemma Fetch_success_witness :
  let q := {| path := "/etc/hosts" |} in
  let stat := {| Size := 3; ModTime := 1700000000 |} in
  Fetch (new_query q) [inl stat] (λ _, inl "abc") 1700000060
  = Some ({| fq_query := q; fq_stat := Some stat |},
          {| fr_value := Str "abc";
             fr_meta := Some {| LastIndex := 1700000060; LastContact := 0 |};
             fr_err := None |})
  ∧ Fetch {| fq_query := q; fq_stat := Some stat |} [inl stat; inl stat]
          (λ _, inl "xyz") 1700000120
    = None.
Proof.
  intros q stat.
  assert (Fetch (new_query q) [inl stat] (λ _, inl "abc") 1700000060
          = Some ({| fq_query := q; fq_stat := Some stat |},
                  {| fr_value := Str "abc";
                     fr_meta := Some {| LastIndex := 1700000060;
                                        LastContact := 0 |};
                     fr_err := None |})) as Hrun by reflexivity.
  destruct (Fetch_success _ _ _ _ _ _ Hrun eq_refl)
    as (stat' & data & _ & _ & _ & Hd' & _ & Hnext).
  split; [exact Hrun|].
  injection Hd' as <-. apply Hnext.
  repeat constructor; by exists stat.
Defined.

(** X15: when [Fetch] returns an error, it is the error of [os.Stat] or of
    the read, wrapped with the id of the query; the value is the empty
    string and there is no metadata; and the query records nothing, so
    that the next [Fetch] judges the polls against the same stat as this
    one did. *)
Theorem Fetch_error (d d' : FileQueryState) (res : FetchResult)
    (polls : list (FileInfo + error)) (readFile : string → string + error)
    (now : Z) (err : error) :
  Fetch d polls readFile now = Some (d', res) →
  fr_err res = Some err →
  d' = d
  ∧ fr_value res = Str ""
  ∧ fr_meta res = None
  ∧ ∃ cause,
      err = Wrap cause (FileQuery_String (fq_query d))
      ∧ (inr cause ∈ polls ∨ readFile (path (fq_query d)) = inr cause).
Proof.
  unfold Fetch. destruct (watch (fq_stat d) polls) as [r|] eqn:Hwatch; [|done].
  apply watch_Some in Hwatch
    as [(cause & Hin & ->)|(stat & Hin & Hch & ->)]; simpl.
  - intros [= <- <-] [= <-]. split_and!; try done.
    exists cause. split; [done|by left].
  - destruct (readFile (path (fq_query d))) as [data|cause] eqn:Hread.
    + by intros [= <- <-].
    + intros [= <- <-] [= <-]. split_and!; try done.
      exists cause. split; [done|by right].
Qed.

Lemma Fetch_error_witness :
  let q := {| path := "/etc/hosts" |} in
  let gone := NewError "stat /etc/hosts: no such file or directory" in
  let res := {| fr_value := Str ""; fr_meta := None;
                fr_err := Some (Wrap gone "file(/etc/hosts)") |} in
  Fetch (new_query q) [inr gone] (λ _, inl "abc") 1700000060
  = Some (new_query q, res)
  ∧ ∃ cause,
      Wrap gone "file(/etc/hosts)" = Wrap cause (FileQuery_String q)
      ∧ (inr cause ∈ [inr (A:=FileInfo) gone]
         ∨ (λ _ : string, inl (B:=error) "abc") (path q) = inr cause).
Proof.
  intros q gone res.
  assert (Fetch (new_query q) [inr gone] (λ _, inl "abc") 1700000060
          = Some (new_query q, res)) as Hrun by reflexivity.
  destruct (Fetch_error (new_query q) (new_query q) res [inr gone]
              (λ _, inl "abc") 1700000060 (Wrap gone "file(/etc/hosts)")
              Hrun eq_refl) as (_ & _ & _ & Hcause).
  split; [exact Hrun|exact Hcause].
Defined.

(** X16: a query fresh from [NewFileQuery] never waits: its first [Fetch]
    returns at the first poll, with the file if it can be read and with an
    error otherwise, and does not look at later polls. *)
Theorem first_Fetch_returns_at_once (q : FileQuery) (p : FileInfo + error)
    (rest : list (FileInfo + error)) (readFile : string → string + error)
    (now : Z) :
  is_Some (Fetch (new_query q) (p :: rest) readFile now)
  ∧ Fetch (new_query q) (p :: rest) readFile now
    = Fetch (new_query q) [p] readFile now
  ∧ Fetch (new_query q) [] readFile now = None.
Proof.
  unfold Fetch, new_query. cbn [fq_stat watch changed].
  destruct p as [stat|err]; cbn [wr_err].
  - destruct (readFile _); by split_and!.
  - by split_and!.
Qed.

(** ** Paths of white space *)

(** X17: a path that is not empty but holds white space only, once past
    the sandbox check, makes the file helper return the error
    [file: invalid format: ""]; nothing is added to [used] or [missing] and
    nothing is looked up. *)
Theorem blank_path_is_refused fp (r used missing : nat)
    (sandbox s : string) (w : World) :
  s ≠ "" →
  TrimSpace s = "" →
  pathInSandbox fp sandbox s = None →
  run_h (fileFunc fp r used missing sandbox s) w
  = (w, Returned (Str "")
          (Some (NewError ("file: invalid format: " +:+ dquote +:+ dquote)))).
Proof.
  intros Hne Hblank Hcheck. unfold fileFunc.
  destruct (String.length s =? 0)%nat eqn:Hlen.
  { by apply length_zero_iff in Hlen. }
  by rewrite Hcheck, (NewFileQuery_blank s Hblank).
Qed.

Lemma blank_path_is_refused_witness :
  let tab_and_spaces := String (ascii_of_nat 9) "  " in
  let w := helper_world NewStore in
  run_h (fileFunc unix_no_symlinks 0 0 1 "." tab_and_spaces) w
  = (w, Returned (Str "")
          (Some (NewError ("file: invalid format: " +:+ dquote +:+ dquote)))).
Proof.
  intros tab_and_spaces w.
  apply (blank_path_is_refused unix_no_symlinks 0 0 1 "." tab_and_spaces w).
  - done.
  - reflexivity.
  - reflexivity.
Defined.
